(** * TF-Hub generative image module: interpolation and latent inversion

    A shallow embedding of [tf_hub_generative_image_module.py].

    The script builds TensorFlow graphs over [float32] tensors.  The
    functions of the script are embedded once, parametrically in the scalar
    arithmetic of the tensors ([Scalar]), and the arithmetic is instantiated
    twice:

    - [f32]: IEEE-754 binary32 with round-to-nearest-even, through the
      Standard Library's [SpecFloat] operations at precision 24 and maximal
      exponent 128.  This is the arithmetic the script executes; overflow,
      infinities and NaN are values of it, not failures.
    - [R]: exact real arithmetic.  The script never computes in it; it
      is the idealisation in which the formulas of the script are linear
      algebra.  A statement made at [R] says so, and stands next to what
      holds of the binary32 run.

    Python exceptions are the [Raise] results of an error monad.  The
    pretrained module, the optimizer and the random-number kernel are
    external services; they are Section variables. *)

From Stdlib Require Import ZArith List Bool Reals Lra Lia QArith Qreals.
From Stdlib Require Import Floats.SpecFloat.
Import ListNotations.

Set Implicit Arguments.

(* ================================================================== *)
(** * Part I: the model *)
(* ================================================================== *)

(** ** Python exceptions *)

Inductive exn : Type :=
| ValueError (lhs rhs : list nat)  (* incompatible static shapes *)
| IndexError.                      (* index out of range *)

Inductive result (A : Type) : Type :=
| Ok (a : A)
| Raise (e : exn).

Arguments Ok {A} a.
Arguments Raise {A} e.

Definition bind {A B : Type} (c : result A) (k : A -> result B) : result B :=
  match c with
  | Ok a => k a
  | Raise e => Raise e
  end.

Notation "x <- c ;; k" := (bind c (fun x => k))
  (at level 61, c at next level, right associativity).

Definition raises {A : Type} (r : result A) : Prop := exists e, r = Raise e.

(** [for x in xs: s = body(s, x)], aborting at the first exception. *)
Fixpoint for_each {A S : Type} (xs : list A) (body : S -> A -> result S) (s : S)
  : result S :=
  match xs with
  | [] => Ok s
  | x :: xs' => s' <- body s x ;; for_each xs' body s'
  end.

(** Python's [range(n)] for an [int] [n]: empty when [n <= 0]. *)
Definition range (n : Z) : list Z := map Z.of_nat (seq 0 (Z.to_nat n)).

(** ** Scalar arithmetic of a tensor dtype *)

Class Scalar (T : Type) : Type := {
  s_add : T -> T -> T;
  s_sub : T -> T -> T;
  s_mul : T -> T -> T;
  s_div : T -> T -> T;
  s_sqrt : T -> T;
  s_abs : T -> T;
  (** a Python [int] operand converted to the dtype of the tensor it meets *)
  s_of_Z : Z -> T;
  (** [np.sqrt(n)], computed by NumPy in binary64, converted to the dtype *)
  s_np_sqrt : Z -> T
}.

(** *** Exact real arithmetic *)

#[export] Instance R_scalar : Scalar R := {
  s_add := Rplus;
  s_sub := Rminus;
  s_mul := Rmult;
  s_div := Rdiv;
  s_sqrt := sqrt;
  s_abs := Rabs;
  s_of_Z := IZR;
  s_np_sqrt := fun n => sqrt (IZR n)
}.

(** *** IEEE-754 binary32 and binary64 *)

Definition f32 : Type := spec_float.

Definition f32_of_Z (z : Z) : f32 := binary_normalize 24 128 z 0 false.

Definition f64_of_Z (z : Z) : spec_float := binary_normalize 53 1024 z 0 false.

(** Narrowing conversion binary64 -> binary32 (round to nearest even). *)
Definition f32_of_f64 (x : spec_float) : f32 :=
  match x with
  | S754_finite s m e => binary_round 24 128 s m e
  | _ => x
  end.

#[export] Instance f32_scalar : Scalar f32 := {
  s_add := SFadd 24 128;
  s_sub := SFsub 24 128;
  s_mul := SFmul 24 128;
  s_div := SFdiv 24 128;
  s_sqrt := SFsqrt 24 128;
  s_abs := SFabs;
  s_of_Z := f32_of_Z;
  s_np_sqrt := fun n => f32_of_f64 (SFsqrt 53 1024 (f64_of_Z n))
}.

(** 11863283 * 2^-24 = 0.70710677, the binary32 number nearest to
    sqrt(1/2), and 1 - 2^-24, the binary32 number just below 1. *)
Definition f32_sqrt_half : f32 := S754_finite false 11863283 (-24).
Definition f32_below_one : f32 := S754_finite false 16777215 (-24).

(** ** Tensors

    A rank-1 tensor is the list of its components; a batch of vectors
    (rank 2) is a list of rows; an image (rank 3, height x width x channels)
    is a list of rows of pixels. *)

Fixpoint map2 {A B C : Type} (f : A -> B -> C) (a : list A) (b : list B)
  : list C :=
  match a, b with
  | x :: a', y :: b' => f x y :: map2 f a' b'
  | _, _ => []
  end.

Section Tensors.
Context {T : Type} {ST : Scalar T}.

Definition vec : Type := list T.
Definition batch : Type := list vec.
Definition image : Type := list (list (list T)).

(** Element-wise binary operation of two rank-1 tensors with TensorFlow's
    broadcasting: equal lengths, or one operand of length 1; any other pair
    of shapes is rejected when the graph is built. *)
Definition broadcast (f : T -> T -> T) (a b : vec) : result vec :=
  if Nat.eqb (length a) (length b) then Ok (map2 f a b)
  else match a, b with
       | [x], _ => Ok (map (f x) b)
       | _, [y] => Ok (map (fun x => f x y) a)
       | _, _ => Raise (ValueError [length a] [length b])
       end.

Definition tf_add : vec -> vec -> result vec := broadcast s_add.
Definition tf_sub : vec -> vec -> result vec := broadcast s_sub.

(** A tensor times, or divided by, a rank-0 operand. *)
Definition mul_scalar (v : vec) (c : T) : vec := map (fun x => s_mul x c) v.
Definition div_scalar (v : vec) (c : T) : vec := map (fun x => s_div x c) v.

(** [tf.reduce_sum] over all components.  TensorFlow does not fix the order
    of the additions; the model adds from left to right, starting from 0. *)
Definition reduce_sum (v : vec) : T := fold_left s_add v (s_of_Z 0).

(** [tf.norm]: the Euclidean norm, sqrt(reduce_sum(x * x)). *)
Definition tf_norm (v : vec) : T :=
  s_sqrt (reduce_sum (map (fun x => s_mul x x) v)).

(** [tf.stack] along axis 0: all the stacked tensors must have one shape. *)
Definition tf_stack (vs : list vec) : result batch :=
  match vs with
  | [] => Ok []
  | v :: rest =>
      match find (fun w => negb (Nat.eqb (length w) (length v))) rest with
      | None => Ok vs
      | Some w => Raise (ValueError [length v] [length w])
      end
  end.

(** ** [interpolate_hypersphere] (source lines 60-71) *)

(** The body of the loop for one [step]. *)
Definition interpolate_step (v1 v2_normalized : vec) (v1_norm : T)
  (num_steps step : Z) : result vec :=
  d <- tf_sub v2_normalized v1 ;;
  interpolated <-
    tf_add v1 (div_scalar (mul_scalar d (s_of_Z step)) (s_of_Z (num_steps - 1))) ;;
  let interpolated_norm := tf_norm interpolated in
  let interpolated_normalized :=
    mul_scalar interpolated (s_div v1_norm interpolated_norm) in
  Ok interpolated_normalized.

Definition interpolate_hypersphere (v1 v2 : vec) (num_steps : Z)
  : result batch :=
  let v1_norm := tf_norm v1 in
  let v2_norm := tf_norm v2 in
  let v2_normalized := mul_scalar v2 (s_div v1_norm v2_norm) in
  vectors <-
    for_each (range num_steps)
      (fun vectors step =>
         interpolated_normalized <-
           interpolate_step v1 v2_normalized v1_norm num_steps step ;;
         Ok (vectors ++ [interpolated_normalized]))
      [] ;;
  tf_stack vectors.

End Tensors.

(** ** Random seeds and fresh graphs (TensorFlow library contract)

    [tf.random_normal(shape, seed=s)] derives the two seeds of its kernel
    from the graph-level seed of the default graph and the operation seed
    [s] ([random_seed.get_seed]): with both unset the kernel is seeded
    from entropy of the environment; with only the operation seed set, the
    default graph-level seed 87654321 is used.  Each pipeline of the script
    runs inside [with tf.Graph().as_default()], a fresh graph whose
    graph-level seed is unset, and opens a fresh session, in which every
    random operation is evaluated once. *)

Record Graph : Type := { graph_seed : option Z; last_id : Z }.

(** [tf.Graph()]. *)
Definition tf_Graph : Graph := {| graph_seed := None; last_id := 0 |}.

Definition DEFAULT_GRAPH_SEED : Z := 87654321.

Definition MAXINT32 : Z := 2 ^ 31 - 1.

(** [_truncate_seed]: a seed is reduced to fit a 32-bit integer. *)
Definition truncate_seed (seed : Z) : Z := seed mod MAXINT32.

Definition avoid_zero_seeds (s : Z * Z) : Z * Z :=
  match s with
  | (0%Z, 0%Z) => (0%Z, MAXINT32)
  | _ => s
  end.

(** [None]: both kernel seeds unset, the kernel draws its own. *)
Definition get_seed (g : Graph) (op_seed : option Z) : option (Z * Z) :=
  match graph_seed g, op_seed with
  | Some gs, Some os =>
      Some (avoid_zero_seeds (truncate_seed gs, truncate_seed os))
  | Some gs, None =>
      Some (avoid_zero_seeds (truncate_seed gs, truncate_seed (last_id g)))
  | None, Some os =>
      Some (avoid_zero_seeds (DEFAULT_GRAPH_SEED, truncate_seed os))
  | None, None => None
  end.

(** What a run finds around it: the default graph current when the function
    is entered, and the entropy an unseeded random kernel would draw. *)
Record Env : Type := { default_graph : Graph; entropy : Z * Z }.

(** ** The two pipelines *)

(** Source line 54. *)
Definition latent_dim : Z := 512.


Section Pipelines.
Context {T : Type} {ST : Scalar T}.

(** The random-normal kernel: component [i] of the stream of the given
    seeds. *)
Variable random_normal_kernel : Z * Z -> nat -> T.

(** The pretrained generator [hub.Module("https://tfhub.dev/google/progan-128/1")]:
    a batch of latent vectors to a batch of images, and the static shape
    [height; width; channels] its signature declares for one image. *)
Variable module : @batch T -> list (@image T).
Variable module_image_shape : list nat.

(** [tf.train.AdamOptimizer(learning_rate).minimize(loss)]: one update of the
    optimizer's slots and of the trained variable. *)
Variable OptState : Type.
Variable adam_slots : OptState.
Variable AdamOptimizer :
  Q -> (@batch T -> result T) -> OptState * @batch T -> OptState * @batch T.

Definition kernel_seeds (g : Graph) (env : Env) (seed : option Z) : Z * Z :=
  match get_seed g seed with
  | Some s => s
  | None => entropy env
  end.


(** [tf.random_normal([rows, cols], seed)] built in graph [g]. *)
Definition tf_random_normal2 (g : Graph) (env : Env) (rows cols : nat)
  (seed : option Z) : @batch T :=
  map (fun r =>
         map (random_normal_kernel (kernel_seeds g env seed))
             (seq (r * cols) cols))
      (seq 0 rows).

(** [xs[0]]. *)
Definition index0 {A : Type} (xs : list A) : result A :=
  match xs with
  | x :: _ => Ok x
  | [] => Raise IndexError
  end.

(** *** Interpolation pipeline (source lines 110-130) *)


(** *** Target image (source lines 138-157) *)



(** *** Shapes and slices of rank-3 arrays *)

(** The shape of a (rectangular) array, read off its first row and first
    pixel. *)
Definition shape3 (im : @image T) : list nat :=
  [length im; length (hd [] im); length (hd [] (hd [] im))].

(** [im[:, :, :n]]. *)
Definition slice_channels (n : nat) (im : @image T) : @image T :=
  map (map (firstn n)) im.

Definition flatten (im : @image T) : @vec T := concat (concat im).

(** [TensorShape.assert_is_compatible_with] on fully known shapes. *)
Definition assert_is_compatible_with (a b : list nat) : result unit :=
  if list_eq_dec Nat.eq_dec a b then Ok tt else Raise (ValueError a b).

(** *** [tf.losses.absolute_difference] (TensorFlow library contract)

    With its default arguments [weights=1.0] and
    [reduction=Reduction.SUM_BY_NONZERO_WEIGHTS] the function returns a
    rank-0 tensor: the sum of the weighted element-wise absolute differences
    divided by the number of elements whose weight is not zero (and 0 when
    there is none). *)
Definition compute_weighted_loss (losses : @vec T) : T :=
  let weighted_losses := mul_scalar losses (s_of_Z 1) in
  let total_loss := reduce_sum weighted_losses in
  let num_present := length losses in
  match num_present with
  | O => s_of_Z 0
  | _ => s_div total_loss (s_of_Z (Z.of_nat num_present))
  end.

(** The value of the loss.  The function also asserts that the static
    shapes of its two arguments are compatible; that happens once, when the
    graph is built, and is part of [optimization_run] below. *)
Definition absolute_difference (labels predictions : @image T) : T :=
  let losses :=
    map2 (fun p l => s_abs (s_sub p l)) (flatten predictions) (flatten labels) in
  compute_weighted_loss losses.

(** [tf.reduce_sum] of a rank-0 tensor reduces over no axis. *)
Definition reduce_sum_rank0 (x : T) : T := x.

(** *** Latent inversion (source lines 162-193) *)

Definition target_image_difference (image0 target : @image T) : T :=
  reduce_sum_rank0 (absolute_difference image0 (slice_channels 3 target)).

Definition regularizer (vector : @batch T) : T :=
  s_abs (s_sub (tf_norm (concat vector)) (s_np_sqrt latent_dim)).

(** The [loss] tensor as a function of the value of the variable. *)
Definition loss (target : @image T) (vector : @batch T) : result T :=
  image0 <- index0 (module vector) ;;
  Ok (s_add (target_image_difference image0 target) (regularizer vector)).

(** The literal [0.3] of source line 183. *)
Definition learning_rate : Q := 3 # 10.

(** What the session holds and what the function has accumulated. *)
Record run_state : Type := {
  vector : @batch T;
  slots : OptState;
  images : list (@image T);
  losses : list T;
  stdout : list T
}.

Definition initial_vector (env : Env) : @batch T :=
  tf_random_normal2 tf_Graph env 1 (Z.to_nat latent_dim) (Some 5%Z).

(** [session.run(tf.global_variables_initializer())]. *)
Definition initial_state (env : Env) : run_state :=
  {| vector := initial_vector env; slots := adam_slots;
     images := []; losses := []; stdout := [] |}.

(** One pass of the loop body: [session.run([train, loss, image])] evaluates
    the image and the loss at the current value of the variable and applies
    the update; then the two appends and the print. *)
Definition optimization_step (target : @image T) (st : run_state)
  : result run_state :=
  let im_out := module (vector st) in
  loss_out <- loss target (vector st) ;;
  let '(slots', vector') :=
    AdamOptimizer learning_rate (loss target) (slots st, vector st) in
  im0 <- index0 im_out ;;
  Ok {| vector := vector'; slots := slots';
        images := images st ++ [im0];
        losses := losses st ++ [loss_out];
        stdout := stdout st ++ [loss_out] |}.

(** Graph construction, where the static shapes are checked, followed by
    the session loop. *)
Definition optimization_run (target : @image T) (env : Env)
  (num_optimization_steps : Z) : result run_state :=
  _ <- assert_is_compatible_with
         (shape3 (slice_channels 3 target)) module_image_shape ;;
  for_each (range num_optimization_steps)
    (fun st _ => optimization_step target st)
    (initial_state env).

(** [target] is the module-level global [target_image] the function reads. *)
Definition find_closest_latent_vector (target : @image T) (env : Env)
  (num_optimization_steps : Z) : result (list (@image T) * list T) :=
  st <- optimization_run target env num_optimization_steps ;;
  Ok (images st, losses st).


End Pipelines.

(** ** Reference formulas

    The closed forms and predicates the properties below are stated with.
    They follow the wording of the specification and are compared with the
    embedded functions in Part II. *)

Section Reference.
Context {T : Type} {ST : Scalar T}.

(** [v2 * (norm(v1) / norm(v2))]: [v2] rescaled to the norm of [v1]. *)
Definition rescaled_v2 (v1 v2 : @vec T) : @vec T :=
  mul_scalar v2 (s_div (tf_norm v1) (tf_norm v2)).

(** The straight-line interpolation [v1 + (w - v1) * k / (n - 1)],
    component by component. *)
Definition straight_line (v1 w : @vec T) (n k : Z) : @vec T :=
  map2 (fun x y =>
          s_add x (s_div (s_mul (s_sub y x) (s_of_Z k)) (s_of_Z (n - 1))))
       v1 w.

(** The straight-line point rescaled by [norm(v1) / norm(interpolated)]. *)
Definition path_point (v1 v2 : @vec T) (n k : Z) : @vec T :=
  let interpolated := straight_line v1 (rescaled_v2 v1 v2) n k in
  mul_scalar interpolated (s_div (tf_norm v1) (tf_norm interpolated)).



(** The midpoint of two vectors. *)
Definition midpoint (a b : @vec T) : @vec T :=
  map2 (fun x y => s_div (s_add x y) (s_of_Z 2)) a b.

(** An array of the given height, width and number of channels. *)
Definition has_shape (h w c : nat) (im : @image T) : Prop :=
  length im = h /\
  Forall (fun row => length row = w /\ Forall (fun px => length px = c) row) im.

(** The sum of the absolute differences of two arrays, element by element. *)
Definition sum_abs_diff (a b : @image T) : T :=
  reduce_sum
    (map2 (fun x y => s_abs (s_sub x y))
          (concat (concat a)) (concat (concat b))).

End Reference.

(** A vector with a component that is not zero. *)
Definition non_zero (v : list R) : Prop := Exists (fun x => x <> 0%R) v.

(** [v2] is a negative multiple of [v1]: the two point in opposite
    directions on one line through the origin. *)
Definition opposite (v1 v2 : list R) : Prop :=
  exists c : R, (c < 0)%R /\ v2 = map (fun x => (x * c)%R) v1.

(** The sum of the squares of the components. *)
Definition sumsq (v : list R) : R :=
  fold_right Rplus 0%R (map (fun x => (x * x)%R) v).




(** The loss as the specification words it: the sum of the absolute pixel
    differences plus the regularizer. *)
Definition loss_as_worded {T : Type} {ST : Scalar T}
  (image0 target : @image T) (vector : @batch T) : T :=
  s_add (sum_abs_diff image0 (slice_channels 3 target))
        (s_abs (s_sub (tf_norm (concat vector)) (s_np_sqrt 512))).

(** The mean of the absolute differences: their sum divided by the number
    of compared values. *)
Definition mean_abs_diff {T : Type} {ST : Scalar T} (a b : @image T) : T :=
  s_div (sum_abs_diff a b)
        (s_of_Z (Z.of_nat (Nat.min (length (concat (concat a)))
                                   (length (concat (concat b)))))).

(** ** Stand-ins for the external services

    Small total implementations of the generator, the optimizer and the
    random kernel, with which concrete runs are exhibited. *)

Module Stub.

Definition kernel : Z * Z -> nat -> f32 := fun _ _ => f32_of_Z 0.

(** An array whose values are all [x]. *)
Definition constant_image (x : f32) (h w c : nat) : @image f32 :=
  repeat (repeat (repeat x c) w) h.

(** A generator that returns one black 2x2 RGB image per latent vector. *)
Definition module : @batch f32 -> list (@image f32) :=
  map (fun _ => constant_image (f32_of_Z 0) 2 2 3).

(** An optimizer that leaves the variable where it is. *)
Definition adam : Q -> (@batch f32 -> result f32) ->
  unit * @batch f32 -> unit * @batch f32 :=
  fun _ _ st => st.

Definition env0 : Env := {| default_graph := tf_Graph; entropy := (0%Z, 0%Z) |}.

(** A white 2x2 target with an alpha channel. *)
Definition white_rgba : @image f32 := constant_image (f32_of_Z 1) 2 2 4.

(** The image the generator returns, and the initial vector of a run. *)
Definition black : @image f32 := constant_image (f32_of_Z 0) 2 2 3.
Definition v0 : @batch f32 := initial_vector kernel env0.

End Stub.

(** ** The trace of the inversion loop, in closed form *)

Section Trace.
Context {T : Type} {ST : Scalar T}.
Variable module : @batch T -> list (@image T).

(** The image generated from the value [v] of the variable: [module(v)[0]],
    the empty array standing for an empty batch. *)
Definition generated_image (v : @batch T) : @image T := hd [] (module v).

(** The value of the loss tensor at [v]. *)
Definition loss_value (target : @image T) (v : @batch T) : T :=
  s_add (target_image_difference (generated_image v) target) (regularizer v).

End Trace.

(** ** [display_images] (source lines 90-99)

    [plt.subplots(nrows, ncols)] returns, with its default [squeeze=True],
    an array of axes from whose shape [nrows, ncols] the dimensions equal
    to 1 are dropped.  What it does when asked for no row depends on the
    version of matplotlib; that outcome is the variable [subplots_no_rows].
    The value of the function is the list of the drawing calls it has made,
    in order. *)

Section Display.
Context {T : Type}.
Variable Caption : Type.
Variable subplots_no_rows : result unit.

Inductive draw : Type :=
| axis_off (r c : nat)
| text (r c : nat) (caption : Caption)
| imshow (r c : nat) (im : @image T).

Definition squeeze (shape : list nat) : list nat :=
  filter (fun d => negb (Nat.eqb d 1)) shape.

Definition plt_subplots (nrows ncols : nat) : result (list nat) :=
  match nrows with
  | O => _ <- subplots_no_rows ;; Ok (squeeze [nrows; ncols])
  | _ => Ok (squeeze [nrows; ncols])
  end.

(** [axes[r, c]] on an array of axes of the given shape. *)
Definition axes_index (shape : list nat) (r c : nat) : result (nat * nat) :=
  match shape with
  | [rows; cols] =>
      if Nat.ltb r rows && Nat.ltb c cols then Ok (r, c) else Raise IndexError
  | _ => Raise IndexError
  end.

(** [xs[i]] for an index that is not negative. *)
Definition list_index {A : Type} (xs : list A) (i : nat) : result A :=
  match nth_error xs i with
  | Some x => Ok x
  | None => Raise IndexError
  end.

(** The body of the loop for the index [i]. *)
Definition display_one (axes : list nat) (images : list (@image T))
  (captions : option (list Caption)) (log : list draw) (i : nat)
  : result (list draw) :=
  let num_horizontally := 5%nat in
  a <- axes_index axes (i / num_horizontally) (i mod num_horizontally) ;;
  let log := log ++ [axis_off (fst a) (snd a)] in
  log <-
    match captions with
    | Some cs =>
        a <- axes_index axes (i / num_horizontally) (i mod num_horizontally) ;;
        caption <- list_index cs i ;;
        Ok (log ++ [text (fst a) (snd a) caption])
    | None => Ok log
    end ;;
  a <- axes_index axes (i / num_horizontally) (i mod num_horizontally) ;;
  im <- list_index images i ;;
  Ok (log ++ [imshow (fst a) (snd a) im]).

Definition display_images (images : list (@image T))
  (captions : option (list Caption)) : result (list draw) :=
  let num_horizontally := 5%nat in
  axes <- plt_subplots (length images / num_horizontally) num_horizontally ;;
  for_each (seq 0 (length images)) (display_one axes images captions) [].

(** Source line 197: the images of the run, each captioned with its
    formatted loss ([format] stands for ["Loss: %.2f" % loss]). *)
Definition display_result {L : Type} (format : L -> Caption)
  (res : list (@image T) * list L) : result (list draw) :=
  display_images (fst res) (Some (map format (snd res))).

(** The drawing calls made for the image of index [i]. *)
Definition draws_of (images : list (@image T))
  (captions : option (list Caption)) (i : nat) : list draw :=
  [axis_off (i / 5) (i mod 5)]
  ++ match captions with
     | Some cs =>
         match nth_error cs i with
         | Some caption => [text (i / 5) (i mod 5) caption]
         | None => []
         end
     | None => []
     end
  ++ [imshow (i / 5) (i mod 5) (nth i images [])].

End Display.

(** ** [animate] (source lines 75-79): conversion of the images to bytes

    [np.clip(images * 255, 0, 255).astype(np.uint8)] on a [float32] array.
    The product and the clipping are [float32] operations; the cast
    truncates towards zero.  The byte a NaN is cast to is not defined; it is
    the variable [nan_byte]. *)


(** A zero of either sign. *)
Definition f32_is_zero (x : f32) : Prop := exists s, x = S754_zero s.









(** ** The division by the constant [num_steps - 1], as a session evaluates it

    Source line 67 divides the tensor [(v2_normalized - v1) * step] by the
    Python integer [num_steps - 1], and [interpolate_step] above makes that
    division.  When the graph is run, TensorFlow's graph optimizer may
    replace the division of a tensor by a constant by the product with the
    reciprocal of the constant, the reciprocal being itself rounded to the
    dtype of the tensor.  The loop is therefore embedded a second time, with
    the quotient as a parameter: [s_div] gives [interpolate_hypersphere]
    back, [reciprocal_quotient] is the rewritten graph. *)

Section Quotient.
Context {T : Type} {ST : Scalar T}.

(** [x / c] evaluated as [x * (1 / c)]. *)
Definition reciprocal_quotient (x c : T) : T := s_mul x (s_div (s_of_Z 1) c).


Definition interpolate_step_by (quot : T -> T -> T)
  (v1 v2_normalized : @vec T) (v1_norm : T) (num_steps step : Z)
  : result (@vec T) :=
  d <- tf_sub v2_normalized v1 ;;
  interpolated <-
    tf_add v1
      (map (fun x => quot x (s_of_Z (num_steps - 1)))
           (mul_scalar d (s_of_Z step))) ;;
  let interpolated_norm := tf_norm interpolated in
  let interpolated_normalized :=
    mul_scalar interpolated (s_div v1_norm interpolated_norm) in
  Ok interpolated_normalized.

Definition interpolate_hypersphere_by (quot : T -> T -> T)
  (v1 v2 : @vec T) (num_steps : Z) : result (@batch T) :=
  let v1_norm := tf_norm v1 in
  let v2_norm := tf_norm v2 in
  let v2_normalized := mul_scalar v2 (s_div v1_norm v2_norm) in
  vectors <-
    for_each (range num_steps)
      (fun vectors step =>
         interpolated_normalized <-
           interpolate_step_by quot v1 v2_normalized v1_norm num_steps step ;;
         Ok (vectors ++ [interpolated_normalized]))
      [] ;;
  tf_stack vectors.


(** The straight-line point and the reference point of the path, with the
    quotient as a parameter. *)
Definition straight_line_by (quot : T -> T -> T) (v1 w : @vec T) (n k : Z)
  : @vec T :=
  map2 (fun x y =>
          s_add x (quot (s_mul (s_sub y x) (s_of_Z k)) (s_of_Z (n - 1))))
       v1 w.

Definition path_point_by (quot : T -> T -> T) (v1 v2 : @vec T) (n k : Z)
  : @vec T :=
  let interpolated := straight_line_by quot v1 (rescaled_v2 v1 v2) n k in
  mul_scalar interpolated (s_div (tf_norm v1) (tf_norm interpolated)).

End Quotient.

(** ** Classes and values of binary32 numbers *)


(** The sign bit of a number; NaN has none. *)
Definition f32_sign (x : f32) : option bool :=
  match x with
  | S754_zero s | S754_infinity s | S754_finite s _ _ => Some s
  | S754_nan => None
  end.

(** NaN, or a number whose sign bit is clear: +0, a positive number or
    +infinity. *)
Definition f32_not_negative (x : f32) : bool :=
  match f32_sign x with
  | Some true => false
  | _ => true
  end.









(* ================================================================== *)
(** * Part II: properties *)
(* ================================================================== *)

Arguments tf_norm : simpl never.
Arguments reduce_sum : simpl never.
Arguments rescaled_v2 : simpl never.
Arguments straight_line : simpl never.
Arguments path_point : simpl never.

(** ** The error monad and the loop *)

Lemma bind_Ok {A B : Type} (a : A) (k : A -> result B) :
  bind (Ok a) k = k a.
Proof. reflexivity. Qed.

Lemma for_each_ext {A S : Type} (xs : list A) (f g : S -> A -> result S) :
  (forall s x, In x xs -> f s x = g s x) ->
  forall s, for_each xs f s = for_each xs g s.
Proof.
  induction xs as [|x xs IH]; intros Hfg s; simpl.
  - reflexivity.
  - rewrite Hfg by (left; reflexivity).
    destruct (g s x) as [s'|e]; simpl; [|reflexivity].
    apply IH. intros s0 y Hy. apply Hfg. right; exact Hy.
Qed.

(** A loop whose body appends one computed element collects the image of
    the iterated list. *)
Lemma for_each_append {A B : Type} (xs : list A) (f : A -> B) :
  forall acc : list B,
    for_each xs (fun acc x => r <- Ok (f x) ;; Ok (acc ++ [r])) acc
    = Ok (acc ++ map f xs).
Proof.
  induction xs as [|x xs IH]; intros acc; simpl.
  - now rewrite app_nil_r.
  - rewrite IH, <- app_assoc. reflexivity.
Qed.

Lemma range_length (n : Z) : length (range n) = Z.to_nat n.
Proof. unfold range. now rewrite length_map, length_seq. Qed.



Lemma range_succ (n : Z) :
  (0 <= n)%Z -> range (n + 1) = range n ++ [n].
Proof.
  intros Hn. unfold range.
  replace (Z.to_nat (n + 1)) with (S (Z.to_nat n)) by lia.
  rewrite seq_S, map_app. simpl. now rewrite Z2Nat.id.
Qed.

Lemma range_head (n : Z) :
  (0 < n)%Z -> exists tl, range n = 0%Z :: tl.
Proof.
  intros Hn. unfold range.
  destruct (Z.to_nat n) as [|m] eqn:E; [lia|].
  simpl. eexists. reflexivity.
Qed.

(** ** Shapes of rank-1 tensors *)

Section TensorFacts.
Context {T : Type} {ST : Scalar T}.

Lemma map2_length {A B C : Type} (f : A -> B -> C) (a : list A) (b : list B) :
  length a = length b -> length (map2 f a b) = length a.
Proof.
  revert b. induction a as [|x a IH]; intros [|y b] H; simpl in *; try lia.
  now rewrite IH by lia.
Qed.

Lemma broadcast_same_length (f : T -> T -> T) (a b : @vec T) :
  length a = length b -> broadcast f a b = Ok (map2 f a b).
Proof.
  intros H. unfold broadcast. now rewrite H, Nat.eqb_refl.
Qed.

Lemma map2_map_r {A B B' C : Type} (f : A -> B' -> C) (g : B -> B')
  (a : list A) (b : list B) :
  map2 f a (map g b) = map2 (fun x y => f x (g y)) a b.
Proof.
  revert b. induction a as [|x a IH]; intros [|y b]; simpl; try reflexivity.
  now rewrite IH.
Qed.

Lemma map2_map2_same {A B C D : Type} (f : A -> C -> D) (g : B -> A -> C)
  (a : list A) (b : list B) :
  map2 f a (map2 g b a) = map2 (fun x y => f x (g y x)) a b.
Proof.
  revert b. induction a as [|x a IH]; intros [|y b]; simpl; try reflexivity.
  now rewrite IH.
Qed.

Lemma map_map2 {A B C D : Type} (f : A -> B -> C) (g : C -> D)
  (a : list A) (b : list B) :
  map g (map2 f a b) = map2 (fun x y => g (f x y)) a b.
Proof.
  revert b. induction a as [|x a IH]; intros [|y b]; simpl; try reflexivity.
  now rewrite IH.
Qed.

Lemma map2_ext {A B C : Type} (f g : A -> B -> C) (a : list A) (b : list B) :
  (forall x y, In x a -> In y b -> f x y = g x y) ->
  map2 f a b = map2 g a b.
Proof.
  revert b. induction a as [|x a IH]; intros [|y b] H; simpl; try reflexivity.
  rewrite H by (left; reflexivity).
  f_equal. apply IH. intros; apply H; right; assumption.
Qed.

Lemma straight_line_length (v1 w : @vec T) (n k : Z) :
  length v1 = length w -> length (straight_line v1 w n k) = length v1.
Proof. intros H. unfold straight_line. now apply map2_length. Qed.

Lemma path_point_length (v1 v2 : @vec T) (n k : Z) :
  length v1 = length v2 -> length (path_point v1 v2 n k) = length v1.
Proof.
  intros H. unfold path_point, mul_scalar. rewrite length_map.
  apply straight_line_length. unfold rescaled_v2, mul_scalar.
  now rewrite length_map.
Qed.

(** The loop body computes the reference point. *)
Lemma interpolate_step_point (v1 v2 : @vec T) (n k : Z) :
  length v1 = length v2 ->
  interpolate_step v1 (rescaled_v2 v1 v2) (tf_norm v1) n k
  = Ok (path_point v1 v2 n k).
Proof.
  intros H. unfold interpolate_step, tf_sub, tf_add.
  assert (Hw : length (rescaled_v2 v1 v2) = length v1)
    by (unfold rescaled_v2, mul_scalar; now rewrite length_map).
  rewrite broadcast_same_length by exact Hw. rewrite bind_Ok.
  rewrite broadcast_same_length
    by (unfold div_scalar, mul_scalar; rewrite !length_map;
        rewrite map2_length by exact Hw; now symmetry).
  rewrite bind_Ok.
  assert (E : map2 s_add v1
                (div_scalar
                   (mul_scalar (map2 s_sub (rescaled_v2 v1 v2) v1) (s_of_Z k))
                   (s_of_Z (n - 1)))
              = straight_line v1 (rescaled_v2 v1 v2) n k).
  { unfold div_scalar, mul_scalar, straight_line.
    rewrite map_map, map_map2, map2_map2_same. reflexivity. }
  rewrite E. reflexivity.
Qed.

Lemma tf_stack_same_length (vs : list (@vec T)) (d : nat) :
  Forall (fun v => length v = d) vs -> tf_stack vs = Ok vs.
Proof.
  intros H. destruct vs as [|v rest]; simpl; [reflexivity|].
  inversion H as [|? ? Hv Hrest]; subst.
  destruct (find (fun w => negb (Nat.eqb (length w) (length v))) rest)
    as [w|] eqn:E; [|reflexivity].
  apply find_some in E. destruct E as [Hin Hneq].
  rewrite Forall_forall in Hrest. rewrite (Hrest _ Hin), Nat.eqb_refl in Hneq.
  discriminate.
Qed.

(** Closed form of the path, in any arithmetic: the loop returns the image
    of [range(num_steps)] under the reference point. *)
Lemma interpolate_hypersphere_closed_form (v1 v2 : @vec T) (n : Z) :
  length v1 = length v2 ->
  interpolate_hypersphere v1 v2 n = Ok (map (path_point v1 v2 n) (range n)).
Proof.
  intros H. unfold interpolate_hypersphere.
  fold (rescaled_v2 v1 v2).
  rewrite (for_each_ext (range n) _
             (fun acc k => r <- Ok (path_point v1 v2 n k) ;; Ok (acc ++ [r]))).
  - rewrite for_each_append. simpl.
    apply tf_stack_same_length with (d := length v1).
    apply Forall_forall. intros p Hp. apply in_map_iff in Hp.
    destruct Hp as [k [<- _]]. now apply path_point_length.
  - intros acc k _. now rewrite interpolate_step_point.
Qed.

End TensorFacts.

(** ** The loop with the quotient as a parameter *)

Arguments straight_line_by : simpl never.
Arguments path_point_by : simpl never.

Section QuotientFacts.
Context {T : Type} {ST : Scalar T}.
Variable quot : T -> T -> T.






End QuotientFacts.

(** With the division made as the source writes it, the parametrised loop
    is [interpolate_hypersphere]. *)
Lemma interpolate_hypersphere_by_div {T : Type} {ST : Scalar T}
  (v1 v2 : @vec T) (n : Z) :
  interpolate_hypersphere_by s_div v1 v2 n = interpolate_hypersphere v1 v2 n.
Proof. reflexivity. Qed.

Lemma path_point_by_div {T : Type} {ST : Scalar T} (v1 v2 : @vec T) (n k : Z) :
  path_point_by s_div v1 v2 n k = path_point v1 v2 n k.
Proof. reflexivity. Qed.

(** In exact arithmetic the two evaluations of the quotient agree. *)
Lemma reciprocal_quotient_R (x c : R) : reciprocal_quotient x c = s_div x c.
Proof. unfold reciprocal_quotient. simpl. unfold Rdiv. ring. Qed.

(** ** Exact arithmetic: norms of real vectors *)

Section RealVectors.
Open Scope R_scope.

Lemma fold_left_Rplus (l : list R) (a : R) :
  fold_left Rplus l a = a + fold_right Rplus 0 l.
Proof.
  revert a. induction l as [|x l IH]; intros a; simpl.
  - ring.
  - rewrite IH. ring.
Qed.

Lemma reduce_sum_R (l : list R) : reduce_sum l = fold_right Rplus 0 l.
Proof. unfold reduce_sum. simpl. rewrite fold_left_Rplus. ring. Qed.

Lemma tf_norm_R (v : list R) : tf_norm v = sqrt (sumsq v).
Proof. unfold tf_norm. simpl s_sqrt. now rewrite reduce_sum_R. Qed.

Lemma sumsq_nonneg (v : list R) : 0 <= sumsq v.
Proof.
  unfold sumsq. induction v as [|x v IH]; simpl.
  - lra.
  - nra.
Qed.

Lemma tf_norm_nonneg (v : list R) : 0 <= tf_norm v.
Proof. rewrite tf_norm_R. apply sqrt_pos. Qed.

Lemma sumsq_scale (v : list R) (c : R) :
  sumsq (mul_scalar v c) = c * c * sumsq v.
Proof.
  unfold sumsq, mul_scalar. induction v as [|x v IH]; simpl.
  - ring.
  - simpl in IH. rewrite IH. ring.
Qed.

Lemma tf_norm_scale (v : list R) (c : R) :
  tf_norm (mul_scalar v c) = Rabs c * tf_norm v.
Proof.
  rewrite !tf_norm_R, sumsq_scale.
  rewrite sqrt_mult_alt by nra.
  f_equal. apply sqrt_Rsqr_abs.
Qed.

Lemma sumsq_zero (v : list R) : sumsq v = 0 -> Forall (fun x => x = 0) v.
Proof.
  unfold sumsq. induction v as [|x v IH]; simpl; intros H.
  - constructor.
  - pose proof (sumsq_nonneg v) as Hv. unfold sumsq in Hv.
    assert (Hx : x * x = 0) by nra.
    constructor; [nra|]. apply IH. nra.
Qed.

Lemma tf_norm_zero (v : list R) : tf_norm v = 0 -> Forall (fun x => x = 0) v.
Proof.
  rewrite tf_norm_R. intros H. apply sumsq_zero.
  apply sqrt_eq_0; [apply sumsq_nonneg | exact H].
Qed.

Lemma non_zero_norm (v : list R) : non_zero v -> 0 < tf_norm v.
Proof.
  intros Hv. pose proof (tf_norm_nonneg v) as H0.
  destruct (Req_dec (tf_norm v) 0) as [E|E]; [|lra].
  apply tf_norm_zero in E. unfold non_zero in Hv.
  apply Exists_exists in Hv. destruct Hv as [x [Hin Hx]].
  rewrite Forall_forall in E. now apply E in Hin.
Qed.

(** Rescaling a vector of positive norm to a non-negative norm [r]. *)
Lemma tf_norm_rescale (v : list R) (r : R) :
  0 <= r -> 0 < tf_norm v ->
  tf_norm (mul_scalar v (s_div r (tf_norm v))) = r.
Proof.
  intros Hr Hv. rewrite tf_norm_scale. simpl s_div.
  rewrite Rabs_right.
  - field. lra.
  - apply Rle_ge. apply Rmult_le_pos; [exact Hr|].
    left. now apply Rinv_0_lt_compat.
Qed.

Lemma mul_scalar_one (v : list R) (c : R) : c = 1 -> mul_scalar v c = v.
Proof.
  intros ->. unfold mul_scalar. simpl s_mul.
  rewrite <- (map_id v) at 2. apply map_ext. intros x. ring.
Qed.

Lemma rescaled_v2_norm (v1 v2 : list R) :
  non_zero v2 -> tf_norm (rescaled_v2 v1 v2) = tf_norm v1.
Proof.
  intros H2. unfold rescaled_v2.
  apply tf_norm_rescale; [apply tf_norm_nonneg | now apply non_zero_norm].
Qed.

Lemma map2_fst {A B : Type} (a : list A) (b : list B) :
  length a = length b -> map2 (fun x _ => x) a b = a.
Proof.
  revert b. induction a as [|x a IH]; intros [|y b] H; simpl in *;
    try reflexivity; try discriminate.
  now rewrite IH by lia.
Qed.

Lemma map2_snd {A B : Type} (a : list A) (b : list B) :
  length a = length b -> map2 (fun _ y => y) a b = b.
Proof.
  revert b. induction a as [|x a IH]; intros [|y b] H; simpl in *;
    try reflexivity; try discriminate.
  now rewrite IH by lia.
Qed.

Lemma Forall_map2 {A B C : Type} (P : C -> Prop) (f : A -> B -> C)
  (a : list A) (b : list B) :
  length a = length b ->
  Forall P (map2 f a b) -> Forall2 (fun x y => P (f x y)) a b.
Proof.
  revert b. induction a as [|x a IH]; intros [|y b] H HF; simpl in *;
    try discriminate; constructor.
  - now inversion HF.
  - apply IH; [lia | now inversion HF].
Qed.

Lemma Forall2_map_eq {A B : Type} (f : A -> B) (a : list A) (b : list B) :
  Forall2 (fun x y => y = f x) a b -> b = map f a.
Proof. induction 1; simpl; congruence. Qed.

Lemma Forall2_left {A B : Type} (P : A -> Prop) (a : list A) (b : list B) :
  Forall2 (fun x _ => P x) a b -> Forall P a.
Proof. induction 1; constructor; assumption. Qed.

Lemma Forall2_right {A B : Type} (P : B -> Prop) (a : list A) (b : list B) :
  Forall2 (fun _ y => P y) a b -> Forall P b.
Proof. induction 1; constructor; assumption. Qed.

Lemma Forall2_impl' {A B : Type} (P Q : A -> B -> Prop) (a : list A) (b : list B) :
  (forall x y, P x y -> Q x y) -> Forall2 P a b -> Forall2 Q a b.
Proof. intros H. induction 1; constructor; auto. Qed.

Lemma non_zero_not_all_zero (v : list R) :
  non_zero v -> ~ Forall (fun x => x = 0) v.
Proof.
  intros Hv HF. apply Exists_exists in Hv. destruct Hv as [x [Hin Hx]].
  rewrite Forall_forall in HF. now apply HF in Hin.
Qed.

(** The straight-line point in terms of the two inputs. *)
Lemma straight_line_rescaled (v1 v2 : list R) (s : R) (n k : Z) :
  straight_line v1 (mul_scalar v2 s) n k
  = map2 (fun x y => x + (y * s - x) * IZR k / IZR (n - 1)) v1 v2.
Proof.
  unfold straight_line, mul_scalar. rewrite map2_map_r. reflexivity.
Qed.

(** Between two vectors that are not opposite, no straight-line point is
    the origin. *)
Lemma straight_line_non_zero (v1 v2 : list R) (n k : Z) :
  length v1 = length v2 ->
  non_zero v1 -> non_zero v2 -> ~ opposite v1 v2 ->
  (2 <= n)%Z -> (0 <= k < n)%Z ->
  0 < tf_norm (straight_line v1 (rescaled_v2 v1 v2) n k).
Proof.
  intros Hlen H1 H2 Hopp Hn Hk.
  pose proof (tf_norm_nonneg (straight_line v1 (rescaled_v2 v1 v2) n k)) as H0.
  destruct (Req_dec (tf_norm (straight_line v1 (rescaled_v2 v1 v2) n k)) 0)
    as [E|E]; [exfalso|lra].
  apply tf_norm_zero in E. unfold rescaled_v2 in E.
  rewrite straight_line_rescaled in E.
  apply Forall_map2 in E; [|exact Hlen].
  pose proof (non_zero_norm H1) as N1. pose proof (non_zero_norm H2) as N2.
  set (s := s_div (tf_norm v1) (tf_norm v2)) in E.
  assert (Hs : 0 < s).
  { unfold s. simpl s_div. apply Rdiv_lt_0_compat; assumption. }
  set (a := IZR k) in E. set (m := IZR (n - 1)) in E.
  assert (Ha : 0 <= a) by (unfold a; apply IZR_le; lia).
  assert (Hm : 0 < m) by (unfold m; apply IZR_lt; lia).
  assert (Ham : a <= m) by (unfold a, m; apply IZR_le; lia).
  assert (E' : Forall2 (fun x y => x * (m - a) + y * s * a = 0) v1 v2).
  { eapply Forall2_impl'; [|exact E]. simpl. intros x y Hxy.
    assert (Hmul : (x + (y * s - x) * a / m) * m = 0) by (rewrite Hxy; ring).
    rewrite <- Hmul. field. lra. }
  clear E.
  destruct (Req_dec a 0) as [Ea|Ea].
  - (* the first point is [v1] *)
    apply (non_zero_not_all_zero H1).
    apply Forall2_left with (b := v2).
    eapply Forall2_impl'; [|exact E']. simpl. intros x y Hxy.
    rewrite Ea in Hxy. nra.
  - destruct (Req_dec a m) as [Em|Em].
    + (* the last point is the rescaled [v2] *)
      apply (non_zero_not_all_zero H2).
      apply Forall2_right with (a := v1).
      eapply Forall2_impl'; [|exact E']. simpl. intros x y Hxy.
      rewrite Em in Hxy.
      assert (Hy : y * (s * m) = 0) by lra.
      apply Rmult_integral in Hy. destruct Hy as [Hy|Hy]; [exact Hy|nra].
    + (* strictly between: [v2] would be a negative multiple of [v1] *)
      apply Hopp. exists (- ((m - a) / (s * a))). split.
      * assert (0 < (m - a) / (s * a)); [|lra].
        apply Rdiv_lt_0_compat; nra.
      * apply Forall2_map_eq.
        eapply Forall2_impl'; [|exact E']. simpl. intros x y Hxy.
        assert (Hsa : s * a <> 0) by nra.
        assert (Hs0 : s <> 0) by lra.
        apply Rmult_eq_reg_r with (r := s * a); [|exact Hsa].
        transitivity (- (x * (m - a))); [lra|].
        field. split; assumption.
Qed.

Lemma path_point_norm (v1 v2 : list R) (n k : Z) :
  length v1 = length v2 ->
  non_zero v1 -> non_zero v2 -> ~ opposite v1 v2 ->
  (2 <= n)%Z -> (0 <= k < n)%Z ->
  tf_norm (path_point v1 v2 n k) = tf_norm v1.
Proof.
  intros Hlen H1 H2 Hopp Hn Hk. unfold path_point.
  apply tf_norm_rescale; [apply tf_norm_nonneg|].
  now apply straight_line_non_zero.
Qed.

Lemma path_point_first (v1 v2 : list R) (n : Z) :
  length v1 = length v2 -> non_zero v1 ->
  path_point v1 v2 n 0 = v1.
Proof.
  intros Hlen H1. pose proof (non_zero_norm H1) as N1.
  unfold path_point, rescaled_v2. rewrite straight_line_rescaled.
  rewrite (map2_ext _ (fun x _ => x)).
  - rewrite map2_fst by exact Hlen.
    apply mul_scalar_one. simpl s_div. field. lra.
  - intros x y _ _. unfold Rdiv. ring.
Qed.

Lemma path_point_last (v1 v2 : list R) (n : Z) :
  length v1 = length v2 -> non_zero v1 -> non_zero v2 -> (2 <= n)%Z ->
  path_point v1 v2 n (n - 1) = rescaled_v2 v1 v2.
Proof.
  intros Hlen H1 H2 Hn. pose proof (non_zero_norm H1) as N1.
  assert (Hm : IZR (n - 1) <> 0) by (apply not_0_IZR; lia).
  assert (Hw : length v1 = length (rescaled_v2 v1 v2))
    by (unfold rescaled_v2, mul_scalar; now rewrite length_map).
  unfold path_point.
  assert (E : straight_line v1 (rescaled_v2 v1 v2) n (n - 1)
              = rescaled_v2 v1 v2).
  { unfold straight_line. rewrite (map2_ext _ (fun _ y => y)).
    - now apply map2_snd.
    - intros x y _ _. simpl. field. exact Hm. }
  rewrite E, (rescaled_v2_norm v1 H2).
  apply mul_scalar_one. simpl s_div. field. lra.
Qed.

End RealVectors.

(** ** Concrete vectors *)

Section Concrete.
Open Scope R_scope.

Lemma tf_norm_pair (x y : R) : tf_norm [x; y] = sqrt (x * x + y * y).
Proof. rewrite tf_norm_R. unfold sumsq. simpl. f_equal. ring. Qed.

Lemma tf_norm_1_0 : tf_norm [1; 0] = 1.
Proof.
  rewrite tf_norm_pair. replace (1 * 1 + 0 * 0) with 1 by ring. apply sqrt_1.
Qed.

Lemma non_zero_head (x : R) (v : list R) : x <> 0 -> non_zero (x :: v).
Proof. intros H. now left. Qed.

Lemma non_zero_tail (x : R) (v : list R) : non_zero v -> non_zero (x :: v).
Proof. intros H. now right. Qed.

End Concrete.

(** ** Binary32 arithmetic: rounding *)




(** ** Right shifts and rounding *)

Lemma iter_pos_nat {A : Type} (f : A -> A) (p : positive) (x : A) :
  iter_pos f p x = Nat.iter (Pos.to_nat p) f x.
Proof.
  revert x. induction p as [p IH|p IH|]; intros x; cbn [iter_pos].
  - rewrite !IH. rewrite Pos2Nat.inj_xI.
    replace (S (2 * Pos.to_nat p)) with (Pos.to_nat p + (Pos.to_nat p + 1))%nat
      by lia.
    rewrite !Nat.iter_add. reflexivity.
  - rewrite !IH. rewrite Pos2Nat.inj_xO.
    replace (2 * Pos.to_nat p)%nat with (Pos.to_nat p + Pos.to_nat p)%nat by lia.
    now rewrite Nat.iter_add.
  - reflexivity.
Qed.

Lemma shr_1_m (mrs : shr_record) :
  (0 <= shr_m mrs)%Z -> shr_m (shr_1 mrs) = (shr_m mrs / 2)%Z.
Proof.
  destruct mrs as [m r s]. simpl. intros Hm.
  rewrite <- Z.div2_div.
  destruct m as [|[p|p|]|p]; try reflexivity. lia.
Qed.

Lemma shr_iter_m (n : nat) (mrs : shr_record) :
  (0 <= shr_m mrs)%Z ->
  shr_m (Nat.iter n shr_1 mrs) = (shr_m mrs / 2 ^ Z.of_nat n)%Z.
Proof.
  intros Hm. induction n as [|n IH].
  - simpl. now rewrite Z.div_1_r.
  - rewrite Nat2Z.inj_succ, Z.pow_succ_r by lia. simpl Nat.iter.
    rewrite shr_1_m.
    + rewrite IH. rewrite Z.div_div by lia. f_equal. lia.
    + rewrite IH. apply Z.div_pos; lia.
Qed.

Lemma shr_record_of_loc_m (m : Z) (l : location) :
  shr_m (shr_record_of_loc m l) = m.
Proof. destruct l as [|[| |]]; reflexivity. Qed.

(** The mantissa and the exponent after [shr_fexp]. *)
Lemma shr_fexp_spec (m e : Z) (l : location) :
  (0 <= m)%Z ->
  let n := Z.max 0 (fexp 24 128 (Zdigits2 m + e) - e) in
  shr_m (fst (shr_fexp 24 128 m e l)) = (m / 2 ^ n)%Z /\
  snd (shr_fexp 24 128 m e l) = (e + n)%Z.
Proof.
  intros Hm n. unfold shr_fexp, shr. subst n.
  destruct (fexp 24 128 (Zdigits2 m + e) - e)%Z as [|p|p] eqn:E.
  - simpl. rewrite shr_record_of_loc_m, Z.div_1_r. split; [reflexivity|lia].
  - cbn [fst snd]. rewrite iter_pos_nat, shr_iter_m
      by (rewrite shr_record_of_loc_m; exact Hm).
    rewrite shr_record_of_loc_m, positive_nat_Z.
    rewrite Z.max_r by lia. split; reflexivity.
  - simpl. rewrite shr_record_of_loc_m, Z.div_1_r. split; [reflexivity|lia].
Qed.

Lemma round_nearest_even_bounds (m : Z) (l : location) :
  (m <= round_nearest_even m l <= m + 1)%Z.
Proof.
  destruct l as [|[| |]]; simpl; try lia. destruct (Z.even m); lia.
Qed.


(** The result of rounding a mantissa that is not negative carries the
    sign it was given: it is never NaN. *)
Lemma binary_round_aux_sign (s : bool) (m e : Z) (l : location) :
  (0 <= m)%Z -> f32_sign (binary_round_aux 24 128 s m e l) = Some s.
Proof.
  intros Hm. unfold binary_round_aux.
  destruct (shr_fexp_spec e l Hm) as [H1 _].
  destruct (shr_fexp 24 128 m e l) as [mrs' e'] eqn:E1. cbn [fst] in H1.
  set (m2 := round_nearest_even (shr_m mrs') (loc_of_shr_record mrs')).
  assert (Hm2 : (0 <= m2)%Z).
  { pose proof (round_nearest_even_bounds (shr_m mrs') (loc_of_shr_record mrs')).
    fold m2 in H. rewrite H1 in H.
    assert (0 <= m / 2 ^ Z.max 0 (fexp 24 128 (Zdigits2 m + e) - e))%Z
      by (apply Z.div_pos; lia). lia. }
  destruct (shr_fexp_spec e' loc_Exact Hm2) as [H2 _].
  destruct (shr_fexp 24 128 m2 e' loc_Exact) as [mrs'' e''] eqn:E2.
  cbn [fst] in H2.
  assert (H3 : (0 <= shr_m mrs'')%Z) by (rewrite H2; apply Z.div_pos; lia).
  destruct (shr_m mrs'') as [|p|p]; [reflexivity| |lia].
  destruct (Z.leb e'' (128 - 24)); reflexivity.
Qed.












(** ** Binary32: the first vector of the path *)









(** ** C1: the interpolation path *)



Lemma not_opposite_1_0__0_2 : ~ opposite [1; 0]%R [0; 2]%R.
Proof.
  intros [c [_ Hc]]. simpl in Hc. injection Hc as _ Hc. lra.
Qed.



(** ** C3: the k-th vector of the path *)







(** ** C10: the path and the span of the two inputs *)













(** ** C7: the scenario v1 = [1,0], v2 = [0,2], n = 3 *)

Lemma tf_norm_0_2 : tf_norm [0; 2]%R = 2%R.
Proof.
  rewrite tf_norm_pair. replace (0 * 0 + 2 * 2)%R with (2 * 2)%R by ring.
  apply sqrt_square. lra.
Qed.

Lemma tf_norm_0_1 : tf_norm [0; 1]%R = 1%R.
Proof.
  rewrite tf_norm_pair. replace (0 * 0 + 1 * 1)%R with 1%R by ring.
  apply sqrt_1.
Qed.

Lemma rescaled_0_2 : rescaled_v2 [1; 0]%R [0; 2]%R = [0; 1]%R.
Proof.
  unfold rescaled_v2. rewrite tf_norm_1_0, tf_norm_0_2.
  simpl. f_equal; [|f_equal]; field.
Qed.

Lemma midpoint_1_0__0_1 : midpoint [1; 0]%R [0; 1]%R = [1 / 2; 1 / 2]%R.
Proof. unfold midpoint. simpl. f_equal; [|f_equal]; field. Qed.

(** C7.  For v1 = [1,0], v2 = [0,2] and n = 3 the path is
    [1,0], the midpoint of [1,0] and [0,1] divided by its norm, [0,1].
    In binary32 the three vectors are computed with these very bits, the
    middle one being [h,h] with h = 11863283 * 2^-24 and computed norm
    1 - 2^-24; in exact arithmetic the three norms are 1. *)
Theorem interpolate_hypersphere_scenario :
  (interpolate_hypersphere (T := f32)
     [f32_of_Z 1; f32_of_Z 0] [f32_of_Z 0; f32_of_Z 2] 3
   = Ok [[f32_of_Z 1; f32_of_Z 0];
         [f32_sqrt_half; f32_sqrt_half];
         [f32_of_Z 0; f32_of_Z 1]]
   /\ rescaled_v2 [f32_of_Z 1; f32_of_Z 0] [f32_of_Z 0; f32_of_Z 2]
      = [f32_of_Z 0; f32_of_Z 1]
   /\ [f32_sqrt_half; f32_sqrt_half]
      = mul_scalar
          (midpoint [f32_of_Z 1; f32_of_Z 0] [f32_of_Z 0; f32_of_Z 1])
          (s_div (f32_of_Z 1)
             (tf_norm
                (midpoint [f32_of_Z 1; f32_of_Z 0] [f32_of_Z 0; f32_of_Z 1])))
   /\ tf_norm [f32_of_Z 1; f32_of_Z 0] = f32_of_Z 1
   /\ tf_norm [f32_of_Z 0; f32_of_Z 1] = f32_of_Z 1
   /\ tf_norm [f32_sqrt_half; f32_sqrt_half] = f32_below_one)
  /\
  (exists p1 : list R,
     interpolate_hypersphere [1; 0]%R [0; 2]%R 3
     = Ok [[1; 0]%R; p1; [0; 1]%R]
     /\ rescaled_v2 [1; 0]%R [0; 2]%R = [0; 1]%R
     /\ p1 = mul_scalar (midpoint [1; 0]%R [0; 1]%R)
               (1 / tf_norm (midpoint [1; 0]%R [0; 1]%R))%R
     /\ tf_norm [1; 0]%R = 1%R
     /\ tf_norm p1 = 1%R
     /\ tf_norm [0; 1]%R = 1%R).
Proof.
  split.
  - repeat split; vm_compute; reflexivity.
  - assert (Hnz1 : non_zero [1; 0]%R) by (apply non_zero_head; lra).
    assert (Hnz2 : non_zero [0; 2]%R)
      by (apply non_zero_tail, non_zero_head; lra).
    exists (path_point [1; 0]%R [0; 2]%R 3 1).
    split; [|split; [exact rescaled_0_2|split; [|split; [exact tf_norm_1_0|split]]]].
    + rewrite interpolate_hypersphere_closed_form by reflexivity.
      change (range 3) with [0; 1; 2]%Z. simpl map.
      rewrite path_point_first by (try reflexivity; assumption).
      assert (HL : path_point [1; 0]%R [0; 2]%R 3 (3 - 1)
                   = rescaled_v2 [1; 0]%R [0; 2]%R)
        by (apply path_point_last; try reflexivity; try assumption; lia).
      change (3 - 1)%Z with 2%Z in HL.
      now rewrite HL, rescaled_0_2.
    + unfold path_point. rewrite rescaled_0_2, tf_norm_1_0.
      assert (E : straight_line [1; 0]%R [0; 1]%R 3 1
                  = midpoint [1; 0]%R [0; 1]%R).
      { unfold straight_line, midpoint. simpl. f_equal; [|f_equal]; field. }
      rewrite E. reflexivity.
    + rewrite path_point_norm; try assumption; try reflexivity; try lia.
      * exact tf_norm_1_0.
      * exact not_opposite_1_0__0_2.
    + exact tf_norm_0_1.
Qed.

(** ** C4: a single step *)

Lemma f32_zero_over_zero (d : f32) :
  s_div (s_mul d (s_of_Z 0)) (s_of_Z (1 - 1)) = S754_nan.
Proof. destruct d as [[|]|[|]| |[|] m e]; reflexivity. Qed.

Lemma f32_add_nan (x : f32) : s_add x S754_nan = S754_nan.
Proof. destruct x; reflexivity. Qed.

Lemma map2_const {A B C : Type} (c : C) (a : list A) (b : list B) :
  length a = length b -> map2 (fun _ _ => c) a b = map (fun _ => c) a.
Proof.
  revert b. induction a as [|x a IH]; intros [|y b] H; simpl in *;
    try reflexivity; try discriminate.
  now rewrite IH by lia.
Qed.

(** C4, what the code does.  In binary32, for v1 and v2 of one dimension,
    [interpolate_hypersphere v1 v2 1] divides ((v2_rescaled - v1) * 0) by
    (1 - 1) = 0; the quotient 0/0 is NaN and no exception is raised: the
    call returns a sequence of one vector whose components are all NaN. *)
Theorem interpolate_hypersphere_one_step (v1 v2 : @vec f32) :
  length v1 = length v2 ->
  interpolate_hypersphere v1 v2 1 = Ok [map (fun _ => S754_nan) v1] /\
  ~ raises (interpolate_hypersphere v1 v2 1).
Proof.
  intros Hlen.
  assert (E : interpolate_hypersphere v1 v2 1
              = Ok [map (fun _ => S754_nan) v1]).
  { rewrite interpolate_hypersphere_closed_form by exact Hlen.
    change (range 1) with [0%Z]. simpl map. do 2 f_equal.
    unfold path_point, straight_line.
    rewrite (map2_ext _ (fun _ _ => S754_nan)).
    - rewrite map2_const
        by (unfold rescaled_v2, mul_scalar; now rewrite length_map).
      unfold mul_scalar. rewrite map_map. reflexivity.
    - intros x y _ _. rewrite f32_zero_over_zero. apply f32_add_nan. }
  split; [exact E|].
  intros [e He]. rewrite E in He. discriminate.
Qed.

Lemma interpolate_hypersphere_one_step_witness :
  interpolate_hypersphere (T := f32)
    [f32_of_Z 1; f32_of_Z 0] [f32_of_Z 0; f32_of_Z 2] 1
  = Ok [[S754_nan; S754_nan]] /\
  ~ raises (interpolate_hypersphere (T := f32)
              [f32_of_Z 1; f32_of_Z 0] [f32_of_Z 0; f32_of_Z 2] 1).
Proof.
  apply (interpolate_hypersphere_one_step
           [f32_of_Z 1; f32_of_Z 0] [f32_of_Z 0; f32_of_Z 2]).
  reflexivity.
Defined.

(** ** The latent-inversion loop *)

Lemma for_each_app {A S : Type} (xs ys : list A) (f : S -> A -> result S) (s : S) :
  for_each (xs ++ ys) f s = (s' <- for_each xs f s ;; for_each ys f s').
Proof.
  revert s. induction xs as [|x xs IH]; intros s; simpl.
  - reflexivity.
  - destruct (f s x) as [s1|e]; simpl; [apply IH | reflexivity].
Qed.

Lemma iter_shift {A : Type} (f : A -> A) (n : nat) (x : A) :
  Nat.iter n f (f x) = f (Nat.iter n f x).
Proof. induction n as [|n IH]; simpl; [reflexivity | now rewrite IH]. Qed.

Lemma assert_is_compatible_with_refl (a : list nat) :
  assert_is_compatible_with a a = Ok tt.
Proof.
  unfold assert_is_compatible_with.
  destruct (list_eq_dec Nat.eq_dec a a) as [_|Hne]; [reflexivity|].
  now contradiction Hne.
Qed.

Section Inversion.
Context {T : Type} {ST : Scalar T}.
Variable random_normal_kernel : Z * Z -> nat -> T.
Variable module : @batch T -> list (@image T).
Variable module_image_shape : list nat.
Variable OptState : Type.
Variable adam_slots : OptState.
Variable AdamOptimizer :
  Q -> (@batch T -> result T) -> OptState * @batch T -> OptState * @batch T.

(** The generator returns one image per latent vector. *)
Hypothesis module_batch : forall v, length (module v) = length v.

(** An update keeps the shape of the trained variable. *)
Hypothesis adam_shape :
  forall lr f s v, length (snd (AdamOptimizer lr f (s, v))) = length v.

Local Abbreviation step := (optimization_step module AdamOptimizer).
Local Abbreviation run :=
  (optimization_run random_normal_kernel module module_image_shape
     adam_slots AdamOptimizer).
Local Abbreviation fclv :=
  (find_closest_latent_vector random_normal_kernel module module_image_shape
     adam_slots AdamOptimizer).
Local Abbreviation update target :=
  (AdamOptimizer learning_rate (loss module target)).

Lemma initial_vector_rows (env : Env) :
  length (initial_vector random_normal_kernel env) = 1%nat.
Proof. reflexivity. Qed.

(** One pass of the loop succeeds, appends one image and one loss and
    applies one update. *)
Lemma optimization_step_appends (target : @image T) (st : run_state OptState) :
  length (vector st) = 1%nat ->
  exists im0 l,
    index0 (module (vector st)) = Ok im0 /\
    loss module target (vector st) = Ok l /\
    step target st
    = Ok {| vector := snd (update target (slots st, vector st));
            slots := fst (update target (slots st, vector st));
            images := images st ++ [im0];
            losses := losses st ++ [l];
            stdout := stdout st ++ [l] |}.
Proof.
  intros Hv. pose proof (module_batch (vector st)) as Hm. rewrite Hv in Hm.
  destruct (module (vector st)) as [|im0 tl] eqn:E; [discriminate|].
  exists im0. eexists. split; [reflexivity|].
  unfold optimization_step, loss. rewrite E. simpl.
  split; [reflexivity|].
  destruct (AdamOptimizer _ _ _) as [s' v']. reflexivity.
Qed.

(** The loop over any list: it succeeds, and it has appended one image and
    one loss, and applied one update, per element. *)
Lemma optimization_loop (target : @image T) (xs : list Z) :
  forall st : run_state OptState,
    length (vector st) = 1%nat ->
    exists st',
      for_each xs (fun st _ => step target st) st = Ok st' /\
      length (vector st') = 1%nat /\
      length (images st') = (length (images st) + length xs)%nat /\
      length (losses st') = (length (losses st) + length xs)%nat /\
      (slots st', vector st')
      = Nat.iter (length xs) (update target) (slots st, vector st).
Proof.
  induction xs as [|x xs IH]; intros st Hv.
  - exists st. simpl. repeat split; try lia; assumption.
  - destruct (optimization_step_appends target st Hv)
      as [im0 [l [_ [_ Hstep]]]].
    simpl for_each. rewrite Hstep. rewrite bind_Ok.
    match goal with |- context [for_each xs _ ?s1] =>
      destruct (IH s1) as [st' [Hrun [Hv' [Hi [Hl Hu]]]]] end.
    { simpl. rewrite adam_shape. exact Hv. }
    exists st'. split; [exact Hrun|]. split; [exact Hv'|].
    simpl in Hi, Hl, Hu. rewrite length_app in Hi, Hl. simpl in Hi, Hl.
    split; [simpl; lia|]. split; [simpl; lia|].
    rewrite Hu. simpl Nat.iter. rewrite <- iter_shift.
    f_equal. now destruct (AdamOptimizer _ _ _).
Qed.

(** The run of [N] steps succeeds when the shape check passes. *)
Lemma optimization_run_steps (target : @image T) (env : Env) (N : Z) :
  assert_is_compatible_with
    (shape3 (slice_channels 3 target)) module_image_shape = Ok tt ->
  exists st,
    run target env N = Ok st /\
    length (vector st) = 1%nat /\
    length (images st) = Z.to_nat N /\
    length (losses st) = Z.to_nat N /\
    (slots st, vector st)
    = Nat.iter (Z.to_nat N) (update target)
        (adam_slots, initial_vector random_normal_kernel env).
Proof.
  intros Hshape.
  destruct (optimization_loop target (range N)
              (initial_state random_normal_kernel adam_slots env)
              (initial_vector_rows env))
    as [st [Hrun [Hv [Hi [Hl Hu]]]]].
  rewrite range_length in Hi, Hl, Hu. simpl in Hi, Hl, Hu.
  exists st. repeat split; try assumption.
  unfold optimization_run. rewrite Hshape. simpl. exact Hrun.
Qed.

(** ** C5: one image and one loss per optimization step *)

(** C5.  For every step count N >= 0, with a target whose first three
    channels have the shape of the generated image,
    [find_closest_latent_vector N] returns a list of images and a list of
    losses of length exactly N; the run of N + 1 steps returns the lists of
    the run of N steps with one image and one loss appended; and the
    variable left by the loop is the initial vector after exactly N updates
    of the optimizer: the loop has no other exit. *)
Theorem find_closest_latent_vector_lengths
  (target : @image T) (env : Env) (N : Z) :
  (0 <= N)%Z ->
  assert_is_compatible_with
    (shape3 (slice_channels 3 target)) module_image_shape = Ok tt ->
  exists st im l,
    run target env N = Ok st /\
    fclv target env N = Ok (images st, losses st) /\
    length (images st) = Z.to_nat N /\
    length (losses st) = Z.to_nat N /\
    (slots st, vector st)
    = Nat.iter (Z.to_nat N) (update target)
        (adam_slots, initial_vector random_normal_kernel env) /\
    fclv target env (N + 1) = Ok (images st ++ [im], losses st ++ [l]).
Proof.
  intros HN Hshape.
  destruct (optimization_run_steps target env N Hshape)
    as [st [HrunN [Hv [Hi [Hl Hu]]]]].
  destruct (optimization_step_appends target st Hv)
    as [im0 [l [_ [_ Hstep]]]].
  exists st, im0, l.
  split; [exact HrunN|].
  split; [unfold find_closest_latent_vector; now rewrite HrunN|].
  split; [exact Hi|]. split; [exact Hl|]. split; [exact Hu|].
  unfold find_closest_latent_vector.
  unfold optimization_run in HrunN |- *.
  rewrite Hshape in HrunN |- *. simpl bind in HrunN. simpl bind at 2.
  rewrite range_succ by exact HN. rewrite for_each_app, HrunN.
  simpl. rewrite Hstep. reflexivity.
Qed.

(** ** C6: a target with an alpha channel *)

Lemma shape3_slice (h w c : nat) (im : @image T) :
  (0 < h)%nat -> (0 < w)%nat -> has_shape h w c im ->
  shape3 (slice_channels 3 im) = [h; w; Nat.min 3 c].
Proof.
  intros Hh Hw [Hlen Hrows]. unfold shape3, slice_channels.
  rewrite length_map, Hlen.
  destruct im as [|row rows]; [simpl in Hlen; lia|].
  inversion Hrows as [|? ? [Hrow Hpx] _]; subst.
  cbn [map hd]. rewrite length_map.
  destruct row as [|px row]; [simpl in Hw; lia|].
  inversion Hpx as [|? ? Hc _]; subst.
  cbn [map hd]. rewrite length_firstn. reflexivity.
Qed.

Lemma slice_channels_idem (n : nat) (im : @image T) :
  slice_channels n (slice_channels n im) = slice_channels n im.
Proof.
  unfold slice_channels. rewrite map_map. apply map_ext. intros row.
  rewrite map_map. apply map_ext. intros px.
  rewrite firstn_firstn. now rewrite Nat.min_id.
Qed.

(** The run reads the target through its first three channels only. *)
Lemma find_closest_latent_vector_slice (t t' : @image T) (env : Env) (N : Z) :
  slice_channels 3 t = slice_channels 3 t' ->
  fclv t env N = fclv t' env N.
Proof.
  intros H.
  assert (Hloss : loss module t = loss module t').
  { unfold loss, target_image_difference. rewrite H. reflexivity. }
  unfold find_closest_latent_vector, optimization_run.
  rewrite H. f_equal. f_equal.
  unfold optimization_step. rewrite Hloss. reflexivity.
Qed.

(** C6.  For a target of 4 channels of the height and width of the
    3-channel generated image, the shape check of the loss passes, the run
    raises no exception, and the result is the one obtained from the first
    three channels of the target alone, whatever its alpha channel holds. *)
Theorem rgba_target_no_shape_error
  (target : @image T) (h w : nat) (env : Env) (N : Z) :
  (0 < h)%nat -> (0 < w)%nat ->
  has_shape h w 4 target ->
  module_image_shape = [h; w; 3%nat] ->
  assert_is_compatible_with
    (shape3 (slice_channels 3 target)) module_image_shape = Ok tt /\
  ~ raises (fclv target env N) /\
  (forall target' : @image T,
     slice_channels 3 target' = slice_channels 3 target ->
     fclv target' env N = fclv target env N) /\
  fclv (slice_channels 3 target) env N = fclv target env N.
Proof.
  intros Hh Hw Hshape Hmod.
  assert (Hcompat : assert_is_compatible_with
            (shape3 (slice_channels 3 target)) module_image_shape = Ok tt).
  { rewrite (shape3_slice Hh Hw Hshape), Hmod. simpl Nat.min.
    apply assert_is_compatible_with_refl. }
  split; [exact Hcompat|]. split; [|split].
  - destruct (optimization_run_steps target env N Hcompat) as [st [Hrun _]].
    intros [e He]. unfold find_closest_latent_vector in He.
    rewrite Hrun in He. discriminate.
  - intros target' H. now apply find_closest_latent_vector_slice.
  - apply find_closest_latent_vector_slice. apply slice_channels_idem.
Qed.

End Inversion.

Lemma stub_module_batch (v : @batch f32) :
  length (Stub.module v) = length v.
Proof. apply length_map. Qed.

Lemma find_closest_latent_vector_lengths_witness :
  exists st im l,
    optimization_run Stub.kernel Stub.module [2; 2; 3]%nat tt Stub.adam
      Stub.white_rgba Stub.env0 3 = Ok st /\
    find_closest_latent_vector Stub.kernel Stub.module [2; 2; 3]%nat tt
      Stub.adam Stub.white_rgba Stub.env0 3 = Ok (images st, losses st) /\
    length (images st) = Z.to_nat 3 /\
    length (losses st) = Z.to_nat 3 /\
    (slots st, vector st)
    = Nat.iter (Z.to_nat 3)
        (Stub.adam learning_rate (loss Stub.module Stub.white_rgba))
        (tt, initial_vector Stub.kernel Stub.env0) /\
    find_closest_latent_vector Stub.kernel Stub.module [2; 2; 3]%nat tt
      Stub.adam Stub.white_rgba Stub.env0 (3 + 1)
    = Ok (images st ++ [im], losses st ++ [l]).
Proof.
  apply (find_closest_latent_vector_lengths
           Stub.kernel Stub.module [2; 2; 3]%nat tt Stub.adam).
  - exact stub_module_batch.
  - intros lr f s v. reflexivity.
  - lia.
  - vm_compute. reflexivity.
Defined.

Lemma rgba_target_no_shape_error_witness :
  assert_is_compatible_with
    (shape3 (slice_channels 3 Stub.white_rgba)) [2; 2; 3]%nat = Ok tt /\
  ~ raises (find_closest_latent_vector Stub.kernel Stub.module [2; 2; 3]%nat
              tt Stub.adam Stub.white_rgba Stub.env0 2) /\
  (forall target' : @image f32,
     slice_channels 3 target' = slice_channels 3 Stub.white_rgba ->
     find_closest_latent_vector Stub.kernel Stub.module [2; 2; 3]%nat
       tt Stub.adam target' Stub.env0 2
     = find_closest_latent_vector Stub.kernel Stub.module [2; 2; 3]%nat
         tt Stub.adam Stub.white_rgba Stub.env0 2) /\
  find_closest_latent_vector Stub.kernel Stub.module [2; 2; 3]%nat
    tt Stub.adam (slice_channels 3 Stub.white_rgba) Stub.env0 2
  = find_closest_latent_vector Stub.kernel Stub.module [2; 2; 3]%nat
      tt Stub.adam Stub.white_rgba Stub.env0 2.
Proof.
  apply rgba_target_no_shape_error with (h := 2%nat) (w := 2%nat).
  - exact stub_module_batch.
  - intros lr f s v. reflexivity.
  - lia.
  - lia.
  - split; [reflexivity|]. repeat constructor.
  - reflexivity.
Defined.

(** ** C2: the loss of one step *)

(** C2, what the code does.  Source line 173 applies [tf.reduce_sum] to
    the value of [tf.losses.absolute_difference], which is already a rank-0
    tensor: the sum of the absolute differences divided by their number.
    The loss a step records is therefore that mean plus the regularizer, not
    the sum plus the regularizer.  With a generator of black 2x2 RGB images, a
    white RGBA target and the zero initial vector, in binary32, the 12
    absolute differences are 1 each: their sum is 12 and their mean is 1; the
    regularizer is sqrt 512 = 22.627417; the loss recorded by the first step
    is 23.627417 = 12387571 * 2^-19, where the sum plus the regularizer is
    34.627417 = 9077370 * 2^-18. *)
Theorem loss_is_mean_not_sum :
  find_closest_latent_vector Stub.kernel Stub.module [2; 2; 3]%nat tt
    Stub.adam Stub.white_rgba Stub.env0 1
  = Ok ([Stub.black], [S754_finite false 12387571 (-19)]) /\
  index0 (Stub.module Stub.v0) = Ok Stub.black /\
  loss Stub.module Stub.white_rgba Stub.v0
  = Ok (s_add (mean_abs_diff Stub.black (slice_channels 3 Stub.white_rgba))
              (regularizer Stub.v0)) /\
  loss_as_worded Stub.black Stub.white_rgba Stub.v0
  = S754_finite false 9077370 (-18) /\
  sum_abs_diff Stub.black (slice_channels 3 Stub.white_rgba) = f32_of_Z 12 /\
  mean_abs_diff Stub.black (slice_channels 3 Stub.white_rgba) = f32_of_Z 1 /\
  regularizer Stub.v0 = S754_finite false 11863283 (-19) /\
  find_closest_latent_vector Stub.kernel Stub.module [2; 2; 3]%nat tt
    Stub.adam Stub.white_rgba Stub.env0 1
  <> Ok ([Stub.black], [loss_as_worded Stub.black Stub.white_rgba Stub.v0]).
Proof.
  repeat split; try (vm_compute; reflexivity).
  vm_compute. discriminate.
Qed.

(** ** C8: the initial vector is a function of the seed *)

(** An unseeded draw in a fresh graph does depend on the environment. *)
Lemma unseeded_draw_depends_on_entropy :
  exists (kernel : Z * Z -> nat -> Z) (env1 env2 : Env),
    tf_random_normal2 kernel tf_Graph env1 1 1 None
    <> tf_random_normal2 kernel tf_Graph env2 1 1 None.
Proof.
  exists (fun s _ => fst s),
    {| default_graph := tf_Graph; entropy := (1%Z, 0%Z) |},
    {| default_graph := tf_Graph; entropy := (2%Z, 0%Z) |}.
  vm_compute. discriminate.
Qed.

(** In a fresh graph the kernel seeds of a seeded operation are fixed by
    the operation seed. *)
Lemma kernel_seeds_fresh_graph (env : Env) (seed : Z) :
  kernel_seeds tf_Graph env (Some seed)
  = avoid_zero_seeds (DEFAULT_GRAPH_SEED, truncate_seed seed).
Proof. reflexivity. Qed.

(** C8.  Whatever the random kernel and whatever the two runs find around
    them (default graph, entropy), the initial latent vector of the
    optimizer, drawn with the operation seed 5 in a fresh graph, is the same
    in both runs: it is the stream of the kernel for the seeds
    (87654321, 5).  The same holds for every fixed operation seed. *)
Theorem initial_vector_deterministic {T : Type}
  (kernel : Z * Z -> nat -> T) (env1 env2 : Env) :
  initial_vector kernel env1 = initial_vector kernel env2 /\
  initial_vector kernel env1
  = [map (kernel (DEFAULT_GRAPH_SEED, 5%Z)) (seq 0 512)] /\
  (forall (OptState : Type) (slots0 : OptState),
     initial_state kernel slots0 env1 = initial_state kernel slots0 env2) /\
  (forall (seed : Z) (rows cols : nat),
     tf_random_normal2 kernel tf_Graph env1 rows cols (Some seed)
     = tf_random_normal2 kernel tf_Graph env2 rows cols (Some seed)).
Proof.
  assert (Hinit : initial_vector kernel env1 = initial_vector kernel env2).
  { unfold initial_vector, tf_random_normal2.
    now rewrite !kernel_seeds_fresh_graph. }
  split; [exact Hinit|]. split; [|split].
  - unfold initial_vector, tf_random_normal2.
    rewrite kernel_seeds_fresh_graph. reflexivity.
  - intros OptState slots0. unfold initial_state. now rewrite Hinit.
  - intros seed rows cols. unfold tf_random_normal2.
    now rewrite !kernel_seeds_fresh_graph.
Qed.

(** ** C9: the configuration values *)

Section Configuration.
Context {T : Type} {ST : Scalar T}.
Variable random_normal_kernel : Z * Z -> nat -> T.
Variable module : @batch T -> list (@image T).
Variable module_image_shape : list nat.
Variable OptState : Type.
Variable adam_slots : OptState.
Variable AdamOptimizer AdamOptimizer' :
  Q -> (@batch T -> result T) -> OptState * @batch T -> OptState * @batch T.




End Configuration.


(* ================================================================== *)
(** * Part III: further properties of the code *)
(* ================================================================== *)

(** ** Shapes in [interpolate_hypersphere] *)

(** X1.  In any arithmetic, every vector of the path has the dimension of
    the two inputs. *)
Theorem interpolate_hypersphere_dimension {T : Type} {ST : Scalar T}
  (v1 v2 : @vec T) (n : Z) :
  length v1 = length v2 ->
  exists path,
    interpolate_hypersphere v1 v2 n = Ok path /\
    Forall (fun p => length p = length v1) path.
Proof.
  intros Hlen. exists (map (path_point v1 v2 n) (range n)).
  split; [now apply interpolate_hypersphere_closed_form|].
  apply Forall_forall. intros p Hp. apply in_map_iff in Hp.
  destruct Hp as [k [<- _]]. now apply path_point_length.
Qed.

Lemma interpolate_hypersphere_dimension_witness :
  exists path,
    interpolate_hypersphere (T := f32)
      [f32_of_Z 1; f32_of_Z 0; f32_of_Z 2]
      [f32_of_Z 0; f32_of_Z 2; f32_of_Z 1] 4 = Ok path /\
    Forall (fun p => length p
                     = length [f32_of_Z 1; f32_of_Z 0; f32_of_Z 2]) path.
Proof.
  apply (interpolate_hypersphere_dimension
           [f32_of_Z 1; f32_of_Z 0; f32_of_Z 2]
           [f32_of_Z 0; f32_of_Z 2; f32_of_Z 1]).
  reflexivity.
Defined.

Lemma range_nonpositive (n : Z) : (n <= 0)%Z -> range n = [].
Proof.
  intros Hn. unfold range. now replace (Z.to_nat n) with 0%nat by lia.
Qed.

Lemma broadcast_incompatible {T : Type} (f : T -> T -> T) (a b : list T) :
  length a <> length b -> length a <> 1%nat -> length b <> 1%nat ->
  broadcast f a b = Raise (ValueError [length a] [length b]).
Proof.
  intros Hab Ha Hb. unfold broadcast.
  destruct (Nat.eqb (length a) (length b)) eqn:E;
    [apply Nat.eqb_eq in E; contradiction|].
  destruct a as [|x [|x' a]]; destruct b as [|y [|y' b]];
    simpl in *; try reflexivity; try contradiction.
Qed.

(** X2.  The shapes of the two inputs are compared only when a step is
    computed: for two inputs of different dimensions, neither of dimension 1,
    the call raises the shape error as soon as there is one step, and
    returns the empty sequence when [num_steps <= 0]. *)
Theorem interpolate_hypersphere_shape_error {T : Type} {ST : Scalar T}
  (v1 v2 : @vec T) (n : Z) :
  length v1 <> length v2 -> length v1 <> 1%nat -> length v2 <> 1%nat ->
  ((1 <= n)%Z ->
   interpolate_hypersphere v1 v2 n
   = Raise (ValueError [length v2] [length v1])) /\
  ((n <= 0)%Z -> interpolate_hypersphere v1 v2 n = Ok []).
Proof.
  intros H12 H1 H2. split; intros Hn.
  - unfold interpolate_hypersphere.
    destruct (range_head (n := n)) as [tl Htl]; [lia|]. rewrite Htl.
    simpl for_each. unfold interpolate_step at 1, tf_sub.
    set (w := mul_scalar v2 _).
    assert (Hw : length w = length v2)
      by (unfold w, mul_scalar; now rewrite length_map).
    rewrite broadcast_incompatible; rewrite ?Hw; try assumption.
    + reflexivity.
    + intros E. apply H12. now symmetry.
  - unfold interpolate_hypersphere. now rewrite range_nonpositive.
Qed.

Lemma interpolate_hypersphere_shape_error_witness :
  ((1 <= 3)%Z ->
   interpolate_hypersphere (T := f32)
     [f32_of_Z 1; f32_of_Z 0] [f32_of_Z 0; f32_of_Z 2; f32_of_Z 1] 3
   = Raise (ValueError [length [f32_of_Z 0; f32_of_Z 2; f32_of_Z 1]]
                       [length [f32_of_Z 1; f32_of_Z 0]])) /\
  ((3 <= 0)%Z ->
   interpolate_hypersphere (T := f32)
     [f32_of_Z 1; f32_of_Z 0] [f32_of_Z 0; f32_of_Z 2; f32_of_Z 1] 3
   = Ok []).
Proof.
  apply (interpolate_hypersphere_shape_error
           [f32_of_Z 1; f32_of_Z 0] [f32_of_Z 0; f32_of_Z 2; f32_of_Z 1]);
    simpl; lia.
Defined.

(** ** A zero vector in binary32 *)

Lemma f32_norm_zeros (v : @vec f32) :
  Forall f32_is_zero v -> tf_norm v = S754_zero false.
Proof.
  intros Hv. unfold tf_norm, reduce_sum.
  assert (E : forall l : @vec f32, Forall f32_is_zero l ->
            fold_left s_add (map (fun x => s_mul x x) l) (S754_zero false)
            = S754_zero false).
  { induction l as [|x l IH]; intros Hl; [reflexivity|].
    inversion Hl as [|? ? [s ->] Hl']; subst. simpl.
    destruct s; simpl; now apply IH. }
  change (s_of_Z 0) with (S754_zero false). now rewrite E.
Qed.

Lemma f32_zero_times_quotient (x a : f32) :
  f32_is_zero x -> s_mul x (s_div a (S754_zero false)) = S754_nan.
Proof.
  intros [s ->]. destruct a as [[|]|[|]| |[|] m e]; destruct s; reflexivity.
Qed.

Lemma f32_nan_step (x c1 c2 c3 : f32) :
  s_mul (s_add x (s_div (s_mul (s_sub S754_nan x) c1) c2)) c3 = S754_nan.
Proof.
  assert (E1 : s_sub S754_nan x = S754_nan) by reflexivity.
  rewrite E1.
  assert (E2 : s_mul S754_nan c1 = S754_nan) by reflexivity.
  rewrite E2.
  assert (E3 : s_div S754_nan c2 = S754_nan) by reflexivity.
  rewrite E3, f32_add_nan. reflexivity.
Qed.

Lemma path_point_zero_v2 (v1 v2 : @vec f32) (n k : Z) :
  length v1 = length v2 -> Forall f32_is_zero v2 ->
  path_point v1 v2 n k = map (fun _ => S754_nan) v1.
Proof.
  intros Hlen Hz. unfold path_point, rescaled_v2.
  rewrite (f32_norm_zeros Hz).
  assert (E : mul_scalar v2 (s_div (tf_norm v1) (S754_zero false))
              = map (fun _ => S754_nan) v2).
  { unfold mul_scalar. apply map_ext_in. intros x Hx.
    rewrite Forall_forall in Hz. now apply f32_zero_times_quotient, Hz. }
  rewrite E. set (c := s_div _ _). clearbody c.
  unfold straight_line, mul_scalar.
  rewrite map2_map_r, map_map2.
  rewrite (map2_ext _ (fun _ _ => S754_nan))
    by (intros x y _ _; apply f32_nan_step).
  now apply map2_const.
Qed.

(** X6.  In binary32, when [v2] is a zero vector (of the dimension of
    [v1]), no exception is raised and every component of every vector of the
    path is NaN, the first vector included. *)
Theorem interpolate_hypersphere_zero_v2 (v1 v2 : @vec f32) (n : Z) :
  length v1 = length v2 -> Forall f32_is_zero v2 ->
  interpolate_hypersphere v1 v2 n
  = Ok (map (fun _ => map (fun _ => S754_nan) v1) (range n)).
Proof.
  intros Hlen Hz.
  rewrite interpolate_hypersphere_closed_form by exact Hlen.
  f_equal. apply map_ext. intros k. now apply path_point_zero_v2.
Qed.

Lemma interpolate_hypersphere_zero_v2_witness :
  interpolate_hypersphere (T := f32)
    [f32_of_Z 1; f32_of_Z 2] [f32_of_Z 0; S754_zero true] 3
  = Ok (map (fun _ => map (fun _ => S754_nan) [f32_of_Z 1; f32_of_Z 2])
            (range 3)).
Proof.
  apply interpolate_hypersphere_zero_v2.
  - reflexivity.
  - repeat constructor; [exists false | exists true]; reflexivity.
Defined.

(** ** The trace of the latent-inversion loop *)

Section InversionTrace.
Context {T : Type} {ST : Scalar T}.
Variable random_normal_kernel : Z * Z -> nat -> T.
Variable module : @batch T -> list (@image T).
Variable module_image_shape : list nat.
Variable OptState : Type.
Variable adam_slots : OptState.
Variable AdamOptimizer :
  Q -> (@batch T -> result T) -> OptState * @batch T -> OptState * @batch T.

Hypothesis module_batch : forall v, length (module v) = length v.
Hypothesis adam_shape :
  forall lr f s v, length (snd (AdamOptimizer lr f (s, v))) = length v.

Local Abbreviation step := (optimization_step module AdamOptimizer).
Local Abbreviation run :=
  (optimization_run random_normal_kernel module module_image_shape
     adam_slots AdamOptimizer).
Local Abbreviation fclv :=
  (find_closest_latent_vector random_normal_kernel module module_image_shape
     adam_slots AdamOptimizer).
Local Abbreviation update target :=
  (AdamOptimizer learning_rate (loss module target)).

(** The variable and the slots after [k] updates, from the state [x]. *)
Local Abbreviation after target k x := (Nat.iter k (update target) x).

Lemma optimization_step_values (target : @image T) (st : run_state OptState) :
  length (vector st) = 1%nat ->
  step target st
  = Ok {| vector := snd (update target (slots st, vector st));
          slots := fst (update target (slots st, vector st));
          images := images st ++ [generated_image module (vector st)];
          losses := losses st ++ [loss_value module target (vector st)];
          stdout := stdout st ++ [loss_value module target (vector st)] |}.
Proof.
  intros Hv.
  destruct (optimization_step_appends module AdamOptimizer module_batch
              target st Hv) as [im0 [l [Him [Hl Hstep]]]].
  rewrite Hstep.
  assert (Eim : generated_image module (vector st) = im0).
  { unfold generated_image. unfold index0 in Him.
    destruct (module (vector st)); [discriminate|]. now injection Him. }
  assert (El : loss_value module target (vector st) = l).
  { unfold loss in Hl. rewrite Him in Hl. simpl in Hl.
    injection Hl as <-. unfold loss_value. now rewrite Eim. }
  now rewrite Eim, El.
Qed.

(** The loop over any list, with what it appends. *)
Lemma optimization_loop_trace (target : @image T) (xs : list Z) :
  forall st : run_state OptState,
    length (vector st) = 1%nat ->
    exists st',
      for_each xs (fun st _ => step target st) st = Ok st' /\
      images st'
      = images st
        ++ map (fun k => generated_image module
                           (snd (after target k (slots st, vector st))))
               (seq 0 (length xs)) /\
      losses st'
      = losses st
        ++ map (fun k => loss_value module target
                           (snd (after target k (slots st, vector st))))
               (seq 0 (length xs)) /\
      stdout st'
      = stdout st
        ++ map (fun k => loss_value module target
                           (snd (after target k (slots st, vector st))))
               (seq 0 (length xs)).
Proof.
  induction xs as [|x xs IH]; intros st Hv.
  - exists st. simpl. now rewrite !app_nil_r.
  - simpl for_each. rewrite (optimization_step_values target st Hv).
    rewrite bind_Ok.
    match goal with |- context [for_each xs _ ?s1] =>
      destruct (IH s1) as [st' [Hrun [Hi [Hl Hs]]]] end.
    { simpl. rewrite adam_shape. exact Hv. }
    exists st'. split; [exact Hrun|].
    simpl in Hi, Hl, Hs.
    assert (Hupd : forall k,
              after target k
                (fst (update target (slots st, vector st)),
                 snd (update target (slots st, vector st)))
              = after target (S k) (slots st, vector st)).
    { intros k. rewrite <- surjective_pairing. simpl.
      apply iter_shift. }
    simpl length. rewrite <- cons_seq, <- seq_shift, !map_cons, !map_map.
    rewrite Hi, Hl, Hs, <- !app_assoc. simpl.
    repeat split; do 2 f_equal; apply map_ext; intros k; now rewrite Hupd.
Qed.

Lemma optimization_run_trace (target : @image T) (env : Env) (N : Z) :
  assert_is_compatible_with
    (shape3 (slice_channels 3 target)) module_image_shape = Ok tt ->
  exists st,
    run target env N = Ok st /\
    images st
    = map (fun k => generated_image module
                      (snd (after target k
                              (adam_slots,
                               initial_vector random_normal_kernel env))))
          (seq 0 (Z.to_nat N)) /\
    losses st
    = map (fun k => loss_value module target
                      (snd (after target k
                              (adam_slots,
                               initial_vector random_normal_kernel env))))
          (seq 0 (Z.to_nat N)) /\
    stdout st = losses st.
Proof.
  intros Hshape.
  destruct (optimization_loop_trace target (range N)
              (initial_state random_normal_kernel adam_slots env)
              (initial_vector_rows random_normal_kernel env))
    as [st [Hrun [Hi [Hl Hs]]]].
  rewrite range_length in Hi, Hl, Hs. simpl in Hi, Hl, Hs.
  exists st. split; [|split; [exact Hi|split; [exact Hl|congruence]]].
  unfold optimization_run. rewrite Hshape. simpl. exact Hrun.
Qed.

(** X7.  With a target that passes the shape check, the k-th image and the
    k-th loss returned by [find_closest_latent_vector N] are the image
    generated from, and the loss at, the variable after k updates of the
    optimizer, for k = 0 .. N-1: the first pair belongs to the initial
    vector, and the vector produced by the N-th update is shown in no
    returned image. *)
Theorem find_closest_latent_vector_trace
  (target : @image T) (env : Env) (N : Z) :
  assert_is_compatible_with
    (shape3 (slice_channels 3 target)) module_image_shape = Ok tt ->
  fclv target env N
  = Ok (map (fun k => generated_image module
                        (snd (after target k
                                (adam_slots,
                                 initial_vector random_normal_kernel env))))
            (seq 0 (Z.to_nat N)),
        map (fun k => loss_value module target
                        (snd (after target k
                                (adam_slots,
                                 initial_vector random_normal_kernel env))))
            (seq 0 (Z.to_nat N))).
Proof.
  intros Hshape.
  destruct (optimization_run_trace target env N Hshape)
    as [st [Hrun [Hi [Hl _]]]].
  unfold find_closest_latent_vector. rewrite Hrun. simpl.
  now rewrite Hi, Hl.
Qed.

(** X8.  The values printed by the loop are exactly the losses the function
    returns, in the same order. *)
Theorem find_closest_latent_vector_prints_losses
  (target : @image T) (env : Env) (N : Z) :
  assert_is_compatible_with
    (shape3 (slice_channels 3 target)) module_image_shape = Ok tt ->
  exists st,
    run target env N = Ok st /\
    fclv target env N = Ok (images st, losses st) /\
    stdout st = losses st.
Proof.
  intros Hshape.
  destruct (optimization_run_trace target env N Hshape)
    as [st [Hrun [_ [_ Hs]]]].
  exists st. split; [exact Hrun|]. split; [|exact Hs].
  unfold find_closest_latent_vector. now rewrite Hrun.
Qed.

(** X9.  The static shape check decides the run before any step is taken:
    for a rectangular target of shape h' x w' x c and a generator of
    declared image shape [h; w; cm], the call raises no exception when
    [h'; w'; min 3 c] = [h; w; cm], and otherwise raises the shape error
    for every step count, zero and negative counts included. *)
Theorem find_closest_latent_vector_shape_check
  (target : @image T) (h' w' c h w cm : nat) (env : Env) (N : Z) :
  (0 < h')%nat -> (0 < w')%nat ->
  has_shape h' w' c target ->
  module_image_shape = [h; w; cm] ->
  ([h'; w'; Nat.min 3 c] = [h; w; cm] -> ~ raises (fclv target env N)) /\
  ([h'; w'; Nat.min 3 c] <> [h; w; cm] ->
   fclv target env N
   = Raise (ValueError [h'; w'; Nat.min 3 c] [h; w; cm])).
Proof.
  intros Hh Hw Hshape Hmod.
  pose proof (shape3_slice Hh Hw Hshape) as Hs.
  split; intros Hcmp.
  - assert (Hcompat : assert_is_compatible_with
              (shape3 (slice_channels 3 target)) module_image_shape = Ok tt).
    { rewrite Hs, Hmod, Hcmp. apply assert_is_compatible_with_refl. }
    destruct (optimization_run_trace target env N Hcompat) as [st [Hrun _]].
    intros [e He]. unfold find_closest_latent_vector in He.
    rewrite Hrun in He. discriminate.
  - unfold find_closest_latent_vector, optimization_run.
    rewrite Hs, Hmod. unfold assert_is_compatible_with.
    destruct (list_eq_dec Nat.eq_dec [h'; w'; Nat.min 3 c] [h; w; cm])
      as [E|_]; [contradiction|reflexivity].
Qed.

End InversionTrace.

Lemma find_closest_latent_vector_trace_witness :
  find_closest_latent_vector Stub.kernel Stub.module [2; 2; 3]%nat tt
    Stub.adam Stub.white_rgba Stub.env0 3
  = Ok (map (fun k => generated_image Stub.module
                        (snd (Nat.iter k
                                (Stub.adam learning_rate
                                   (loss Stub.module Stub.white_rgba))
                                (tt, initial_vector Stub.kernel Stub.env0))))
            (seq 0 (Z.to_nat 3)),
        map (fun k => loss_value Stub.module Stub.white_rgba
                        (snd (Nat.iter k
                                (Stub.adam learning_rate
                                   (loss Stub.module Stub.white_rgba))
                                (tt, initial_vector Stub.kernel Stub.env0))))
            (seq 0 (Z.to_nat 3))).
Proof.
  apply (find_closest_latent_vector_trace
           Stub.kernel Stub.module [2; 2; 3]%nat tt Stub.adam).
  - exact stub_module_batch.
  - intros lr f s v. reflexivity.
  - vm_compute. reflexivity.
Defined.

Lemma find_closest_latent_vector_prints_losses_witness :
  exists st,
    optimization_run Stub.kernel Stub.module [2; 2; 3]%nat tt Stub.adam
      Stub.white_rgba Stub.env0 3 = Ok st /\
    find_closest_latent_vector Stub.kernel Stub.module [2; 2; 3]%nat tt
      Stub.adam Stub.white_rgba Stub.env0 3 = Ok (images st, losses st) /\
    stdout st = losses st.
Proof.
  apply (find_closest_latent_vector_prints_losses
           Stub.kernel Stub.module [2; 2; 3]%nat tt Stub.adam).
  - exact stub_module_batch.
  - intros lr f s v. reflexivity.
  - vm_compute. reflexivity.
Defined.

Lemma find_closest_latent_vector_shape_check_witness :
  ([2; 2; Nat.min 3 4]%nat = [2; 2; 3]%nat ->
   ~ raises (find_closest_latent_vector Stub.kernel Stub.module
               [2; 2; 3]%nat tt Stub.adam Stub.white_rgba Stub.env0 0)) /\
  ([2; 2; Nat.min 3 4]%nat <> [2; 2; 3]%nat ->
   find_closest_latent_vector Stub.kernel Stub.module [2; 2; 3]%nat tt
     Stub.adam Stub.white_rgba Stub.env0 0
   = Raise (ValueError [2; 2; Nat.min 3 4]%nat [2; 2; 3]%nat)).
Proof.
  apply find_closest_latent_vector_shape_check.
  - exact stub_module_batch.
  - intros lr f s v. reflexivity.
  - lia.
  - lia.
  - split; [reflexivity|]. repeat constructor.
  - reflexivity.
Defined.

(** ** Binary32: the sign of the loss *)

Lemma binary_round_sign (s : bool) (m : positive) (e : Z) :
  f32_sign (binary_round 24 128 s m e) = Some s.
Proof.
  unfold binary_round.
  destruct (shl_align m e (fexp 24 128 (Zpos (digits2_pos m) + e))) as [mz ez].
  apply binary_round_aux_sign. lia.
Qed.

Lemma binary_normalize_not_negative (z e : Z) :
  (0 <= z)%Z -> f32_not_negative (binary_normalize 24 128 z e false) = true.
Proof.
  intros Hz. destruct z as [|p|p]; [reflexivity| |lia].
  unfold f32_not_negative, binary_normalize. now rewrite binary_round_sign.
Qed.

Lemma f32_of_Z_not_negative (z : Z) :
  (0 <= z)%Z -> f32_not_negative (f32_of_Z z) = true.
Proof. apply binary_normalize_not_negative. Qed.

Lemma SFabs_not_negative (x : f32) : f32_not_negative (SFabs x) = true.
Proof. destruct x; reflexivity. Qed.

Lemma SFadd_not_negative (a b : f32) :
  f32_not_negative a = true -> f32_not_negative b = true ->
  f32_not_negative (SFadd 24 128 a b) = true.
Proof.
  destruct a as [[|]|[|]| |[|] ma ea]; try discriminate; intros _;
    destruct b as [[|]|[|]| |[|] mb eb]; try discriminate; intros _;
    try reflexivity.
  unfold SFadd. apply binary_normalize_not_negative. simpl. lia.
Qed.

Lemma SFmul_not_negative (a b : f32) :
  f32_not_negative a = true -> f32_not_negative b = true ->
  f32_not_negative (SFmul 24 128 a b) = true.
Proof.
  destruct a as [[|]|[|]| |[|] ma ea]; try discriminate; intros _;
    destruct b as [[|]|[|]| |[|] mb eb]; try discriminate; intros _;
    try reflexivity.
  unfold SFmul, f32_not_negative. rewrite binary_round_aux_sign by lia.
  reflexivity.
Qed.

Lemma SFdiv_core_binary_nonneg (m1 m2 : positive) (e1 e2 : Z) :
  (0 <= fst (fst (SFdiv_core_binary 24 128 (Zpos m1) e1 (Zpos m2) e2)))%Z.
Proof.
  unfold SFdiv_core_binary.
  set (s := (e1 - e2 - _)%Z).
  set (m' := match s with
             | 0%Z => Zpos m1
             | Zpos _ => Z.shiftl (Zpos m1) s
             | Zneg _ => 0%Z
             end).
  assert (Hm' : (0 <= m')%Z).
  { unfold m'. destruct s; try lia. apply Z.shiftl_nonneg. lia. }
  pose proof (Z.div_pos m' (Zpos m2) Hm' ltac:(lia)) as Hq.
  unfold Z.div in Hq.
  destruct (Z.div_eucl m' (Zpos m2)) as [q r]. exact Hq.
Qed.

Lemma SFdiv_not_negative (a b : f32) :
  f32_not_negative a = true -> f32_not_negative b = true ->
  f32_not_negative (SFdiv 24 128 a b) = true.
Proof.
  destruct a as [[|]|[|]| |[|] ma ea]; try discriminate; intros _;
    destruct b as [[|]|[|]| |[|] mb eb]; try discriminate; intros _;
    try reflexivity.
  unfold SFdiv.
  pose proof (SFdiv_core_binary_nonneg ma mb ea eb) as Hq.
  destruct (SFdiv_core_binary 24 128 (Zpos ma) ea (Zpos mb) eb) as [[mz ez] lz].
  simpl in Hq. unfold f32_not_negative.
  rewrite binary_round_aux_sign by exact Hq. reflexivity.
Qed.

Lemma reduce_sum_not_negative (l : @vec f32) :
  forallb f32_not_negative l = true ->
  f32_not_negative (reduce_sum l) = true.
Proof.
  unfold reduce_sum.
  assert (G : forall (l : @vec f32) (a : f32),
            f32_not_negative a = true ->
            forallb f32_not_negative l = true ->
            f32_not_negative (fold_left s_add l a) = true).
  { induction l0 as [|x l0 IH]; intros a Ha Hl; simpl in *; [exact Ha|].
    apply andb_true_iff in Hl. destruct Hl as [Hx Hl].
    apply IH; [|exact Hl]. now apply SFadd_not_negative. }
  intros Hl. apply G; [|exact Hl]. reflexivity.
Qed.

Lemma forallb_map2 {A B C : Type} (P : C -> bool) (g : A -> B -> C)
  (a : list A) (b : list B) :
  (forall x y, P (g x y) = true) -> forallb P (map2 g a b) = true.
Proof.
  intros H. revert b. induction a as [|x a IH]; intros [|y b]; simpl;
    try reflexivity. now rewrite H, IH.
Qed.

Lemma compute_weighted_loss_not_negative (l : @vec f32) :
  forallb f32_not_negative l = true ->
  f32_not_negative (compute_weighted_loss l) = true.
Proof.
  intros Hl. unfold compute_weighted_loss.
  destruct (length l) as [|n] eqn:E; [reflexivity|].
  apply SFdiv_not_negative.
  - apply reduce_sum_not_negative. unfold mul_scalar.
    rewrite forallb_forall in *. intros y Hy. apply in_map_iff in Hy.
    destruct Hy as [x [<- Hx]]. apply SFmul_not_negative; [now apply Hl|].
    reflexivity.
  - apply f32_of_Z_not_negative. lia.
Qed.

(** X10.  In binary32 the loss of a step is never negative, whatever the
    generator returns and whatever the target: it is NaN, or a number whose
    sign bit is clear (+0, a positive number or +infinity). *)
Theorem loss_not_negative
  (module : @batch f32 -> list (@image f32))
  (target : @image f32) (v : @batch f32) (l : f32) :
  loss module target v = Ok l -> f32_not_negative l = true.
Proof.
  unfold loss. destruct (index0 (module v)) as [im0|e]; [|discriminate].
  simpl. intros H. injection H as <-.
  apply SFadd_not_negative.
  - unfold target_image_difference, reduce_sum_rank0, absolute_difference.
    apply compute_weighted_loss_not_negative.
    apply forallb_map2. intros x y. apply SFabs_not_negative.
  - unfold regularizer. apply SFabs_not_negative.
Qed.

Lemma loss_not_negative_witness :
  loss Stub.module Stub.white_rgba Stub.v0
  = Ok (S754_finite false 12387571 (-19)) /\
  f32_not_negative (S754_finite false 12387571 (-19)) = true.
Proof.
  assert (H : loss Stub.module Stub.white_rgba Stub.v0
              = Ok (S754_finite false 12387571 (-19)))
    by (vm_compute; reflexivity).
  split; [exact H|].
  exact (loss_not_negative Stub.module Stub.white_rgba Stub.v0 H).
Defined.

(** ** The grid of [display_images] *)

Lemma divmod5 (i : nat) : i = (5 * (i / 5) + i mod 5)%nat /\ (i mod 5 < 5)%nat.
Proof. split; [apply Nat.div_mod_eq | apply Nat.mod_upper_bound; lia]. Qed.

(** A loop that raises at one element whatever the state raises. *)
Lemma for_each_raises_at {A S : Type} (xs ys : list A) (y : A)
  (f : S -> A -> result S) (s : S) :
  (forall s', raises (f s' y)) ->
  raises (for_each (xs ++ y :: ys) f s).
Proof.
  intros Hy. rewrite for_each_app.
  destruct (for_each xs f s) as [s1|e]; simpl.
  - destruct (Hy s1) as [e He]. rewrite He. simpl. now exists e.
  - now exists e.
Qed.

(** A loop whose body appends to a log. *)
Lemma for_each_emit {A B : Type} (xs : list A) (f : list B -> A -> result (list B))
  (g : A -> list B) :
  (forall x log, In x xs -> f log x = Ok (log ++ g x)) ->
  forall log, for_each xs f log = Ok (log ++ concat (map g xs)).
Proof.
  induction xs as [|x xs IH]; intros Hf log; simpl.
  - now rewrite app_nil_r.
  - rewrite Hf by (left; reflexivity). simpl.
    rewrite IH by (intros; apply Hf; now right).
    now rewrite app_assoc.
Qed.

Section DisplayFacts.
Context {T : Type}.
Variable Caption : Type.
Variable subplots_no_rows : result unit.

Lemma list_index_nth {A : Type} (xs : list A) (i : nat) (d : A) :
  (i < length xs)%nat -> list_index xs i = Ok (nth i xs d).
Proof.
  intros Hi. unfold list_index.
  now rewrite (nth_error_nth' xs d Hi).
Qed.

(** One pass over a grid of at least two rows. *)
Lemma display_one_draws (rows : nat) (images : list (@image T))
  (captions : option (list Caption)) (log : list (draw Caption)) (i : nat) :
  (i / 5 < rows)%nat -> (i < length images)%nat ->
  (forall cs, captions = Some cs -> (i < length cs)%nat) ->
  display_one [rows; 5%nat] images captions log i
  = Ok (log ++ draws_of images captions i).
Proof.
  intros Hr Hi Hc. pose proof (divmod5 i) as [_ Hm].
  unfold display_one, draws_of, axes_index.
  apply Nat.ltb_lt in Hr. apply Nat.ltb_lt in Hm. rewrite Hr, Hm. simpl.
  rewrite (list_index_nth images [] Hi).
  destruct captions as [cs|]; simpl.
  - specialize (Hc cs eq_refl). unfold list_index.
    destruct (nth_error cs i) as [cap|] eqn:E.
    + simpl. now rewrite <- !app_assoc.
    + apply nth_error_None in E. lia.
  - now rewrite <- !app_assoc.
Qed.

Lemma draws_of_imshow (images : list (@image T))
  (captions : option (list Caption)) (i r c : nat) (im : @image T) :
  In (imshow Caption r c im) (draws_of images captions i) <->
  r = (i / 5)%nat /\ c = (i mod 5)%nat /\ im = nth i images [].
Proof.
  unfold draws_of. rewrite !in_app_iff. simpl. split.
  - intros [[H|[]]|[H|H]]; try discriminate.
    + destruct captions as [cs|]; [|contradiction].
      destruct (nth_error cs i); simpl in H; [|contradiction].
      destruct H as [H|[]]. discriminate.
    + destruct H as [H|[]]. injection H as <- <- <-. auto.
  - intros [-> [-> ->]]. right. right. now left.
Qed.

Lemma display_images_succeeds (images : list (@image T))
  (captions : option (list Caption)) (rows : nat) :
  length images = (5 * rows)%nat -> (2 <= rows)%nat ->
  (forall cs, captions = Some cs -> (length images <= length cs)%nat) ->
  display_images subplots_no_rows images captions
  = Ok (concat (map (draws_of images captions) (seq 0 (length images)))).
Proof.
  intros Hlen Hrows Hcap. unfold display_images.
  replace (length images / 5)%nat with rows
    by (rewrite Hlen, Nat.mul_comm; symmetry; apply Nat.div_mul; lia).
  destruct rows as [|[|rows']]; try lia. simpl plt_subplots. rewrite bind_Ok.
  rewrite (for_each_emit _ _ (draws_of images captions)); [reflexivity|].
  intros i log Hi. apply in_seq in Hi.
  apply display_one_draws.
  - pose proof (divmod5 i). lia.
  - lia.
  - intros cs Hcs. specialize (Hcap cs Hcs). lia.
Qed.

(** X11.  For a number of images that is a multiple of 5 and at least 10
    (and captions, when given, for every image), [display_images] raises
    nothing and makes, image after image, the calls [axis("off")], [text]
    (with captions) and [imshow] on the cell (i // 5, i % 5); every cell of
    the grid of [len(images) // 5] rows and 5 columns shows exactly one
    image, the cell (r, c) the image of index 5 r + c. *)
Theorem display_images_grid (images : list (@image T))
  (captions : option (list Caption)) (rows : nat) :
  length images = (5 * rows)%nat -> (2 <= rows)%nat ->
  (forall cs, captions = Some cs -> (length images <= length cs)%nat) ->
  display_images subplots_no_rows images captions
  = Ok (concat (map (draws_of images captions) (seq 0 (length images)))) /\
  forall r c im,
    In (imshow Caption r c im)
       (concat (map (draws_of images captions) (seq 0 (length images))))
    <-> ((r < rows)%nat /\ (c < 5)%nat /\
         nth_error images (5 * r + c) = Some im).
Proof.
  intros Hlen Hrows Hcap. split.
  - now apply display_images_succeeds with (rows := rows).
  - intros r c im. rewrite in_concat. split.
    + intros [l [Hl Hin]]. apply in_map_iff in Hl.
      destruct Hl as [i [<- Hi]]. apply in_seq in Hi.
      apply draws_of_imshow in Hin. destruct Hin as [-> [-> ->]].
      pose proof (divmod5 i) as [Hd Hm].
      split; [lia|]. split; [lia|].
      rewrite <- Hd. apply nth_error_nth'. lia.
    + intros [Hr [Hc Him]].
      assert (Hi : (5 * r + c < length images)%nat)
        by (apply nth_error_Some; congruence).
      exists (draws_of images captions (5 * r + c)). split.
      * apply in_map, in_seq. lia.
      * apply draws_of_imshow.
        pose proof (divmod5 (5 * r + c)) as [Hd Hm].
        split; [lia|]. split; [lia|].
        apply (nth_error_nth images) with (d := []) in Him. now symmetry.
Qed.

(** With fewer than 5 images there is no row, with 5 to 9 images the array
    of axes has one dimension only, and otherwise the last
    [len(images) % 5] images have no row. *)
Lemma display_images_fails (images : list (@image T))
  (captions : option (list Caption)) :
  images <> [] ->
  (length images < 10)%nat \/ (length images mod 5)%nat <> 0%nat ->
  raises (display_images subplots_no_rows images captions).
Proof.
  intros Hne Hbad. unfold display_images.
  pose proof (divmod5 (length images)) as [Hd Hm].
  assert (Hpos : (0 < length images)%nat)
    by (destruct images; [contradiction|simpl; lia]).
  assert (Hfirst : forall shape,
            (forall log, raises (display_one shape images captions log 0)) ->
            raises (for_each (seq 0 (length images))
                      (display_one shape images captions) [])).
  { intros shape H0. destruct (length images) as [|n]; [lia|].
    simpl seq. now apply (for_each_raises_at [] (seq 1 n)). }
  destruct (length images / 5)%nat as [|[|rows']] eqn:Er.
  - (* no row *)
    simpl plt_subplots. destruct subplots_no_rows as [[]|e]; simpl.
    + apply Hfirst. intros log. exists IndexError. reflexivity.
    + now exists e.
  - (* one row: the array of axes is squeezed to one dimension *)
    simpl plt_subplots. rewrite bind_Ok.
    apply Hfirst. intros log. exists IndexError. reflexivity.
  - (* the images after the last full row *)
    simpl plt_subplots. rewrite bind_Ok.
    set (rows := S (S rows')) in *.
    assert (Hsplit : seq 0 (length images)
                     = seq 0 (5 * rows)
                       ++ (5 * rows)%nat
                          :: seq (S (5 * rows)) (length images - 5 * rows - 1)).
    { replace (length images)
        with (5 * rows + S (length images - 5 * rows - 1))%nat at 1 by lia.
      rewrite seq_app. reflexivity. }
    rewrite Hsplit. apply for_each_raises_at. intros log.
    exists IndexError. unfold display_one, axes_index.
    replace (5 * rows / 5)%nat with rows
      by (rewrite Nat.mul_comm; symmetry; apply Nat.div_mul; lia).
    now rewrite Nat.ltb_irrefl.
Qed.

(** X12.  For images that are not none, with captions (when given) for
    every image, [display_images] raises no exception exactly when the
    number of images is a multiple of 5 and at least 10; this holds whatever
    [plt.subplots] does when asked for no row. *)
Theorem display_images_succeeds_iff (images : list (@image T))
  (captions : option (list Caption)) :
  images <> [] ->
  (forall cs, captions = Some cs -> (length images <= length cs)%nat) ->
  (~ raises (display_images subplots_no_rows images captions) <->
   ((length images mod 5)%nat = 0%nat /\ (10 <= length images)%nat)).
Proof.
  intros Hne Hcap. split.
  - intros Hok.
    destruct (Nat.eq_dec (length images mod 5) 0) as [Hm|Hm].
    + split; [exact Hm|].
      destruct (Nat.lt_ge_cases (length images) 10) as [Hlt|Hge];
        [|exact Hge].
      exfalso. apply Hok. apply display_images_fails; auto.
    + exfalso. apply Hok. apply display_images_fails; auto.
  - intros [Hm Hge] [e He].
    pose proof (divmod5 (length images)) as [Hd _].
    rewrite (@display_images_succeeds images captions
               (length images / 5)%nat) in He;
      [discriminate|lia|lia|exact Hcap].
Qed.

End DisplayFacts.

Lemma display_images_grid_witness :
  display_images (T := f32) (Caption := nat) (Raise IndexError)
    (repeat Stub.black 10) (Some (seq 0 10))
  = Ok (concat (map (draws_of (repeat Stub.black 10) (Some (seq 0 10)))
                    (seq 0 (length (repeat Stub.black 10))))) /\
  forall r c im,
    In (imshow nat r c im)
       (concat (map (draws_of (repeat Stub.black 10) (Some (seq 0 10)))
                    (seq 0 (length (repeat Stub.black 10)))))
    <-> ((r < 2)%nat /\ (c < 5)%nat /\
         nth_error (repeat Stub.black 10) (5 * r + c) = Some im).
Proof.
  apply display_images_grid.
  - reflexivity.
  - lia.
  - intros cs Hcs. injection Hcs as <-. simpl. lia.
Defined.

Lemma display_images_succeeds_iff_witness :
  ~ raises (display_images (T := f32) (Caption := nat) (Ok tt)
              (repeat Stub.black 7) None) <->
  ((length (repeat Stub.black 7) mod 5)%nat = 0%nat /\
   (10 <= length (repeat Stub.black 7))%nat).
Proof.
  apply display_images_succeeds_iff.
  - discriminate.
  - discriminate.
Defined.

(** ** Displaying the result of the inversion *)

Section ScriptDisplay.
Context {T : Type} {ST : Scalar T}.
Variable random_normal_kernel : Z * Z -> nat -> T.
Variable module : @batch T -> list (@image T).
Variable module_image_shape : list nat.
Variable OptState : Type.
Variable adam_slots : OptState.
Variable AdamOptimizer :
  Q -> (@batch T -> result T) -> OptState * @batch T -> OptState * @batch T.
Variable Caption : Type.
Variable subplots_no_rows : result unit.
Variable format : T -> Caption.

Hypothesis module_batch : forall v, length (module v) = length v.
Hypothesis adam_shape :
  forall lr f s v, length (snd (AdamOptimizer lr f (s, v))) = length v.

(** X13.  The result of [find_closest_latent_vector N], for N >= 1 and a
    target that passes the shape check, can be handed to the display call of
    the script (source line 197) without an exception exactly when N is a
    multiple of 5 and at least 10, as the 40 of the script is. *)
Theorem display_result_succeeds_iff (target : @image T) (env : Env) (N : Z) :
  (1 <= N)%Z ->
  assert_is_compatible_with
    (shape3 (slice_channels 3 target)) module_image_shape = Ok tt ->
  exists res,
    find_closest_latent_vector random_normal_kernel module module_image_shape
      adam_slots AdamOptimizer target env N = Ok res /\
    (~ raises (display_result subplots_no_rows format res) <->
     ((N mod 5 = 0)%Z /\ (10 <= N)%Z)).
Proof.
  intros HN Hshape.
  destruct (optimization_run_steps random_normal_kernel module
              module_image_shape adam_slots AdamOptimizer
              module_batch adam_shape target env N Hshape)
    as [st [Hrun [_ [Hi [Hl _]]]]].
  exists (images st, losses st).
  split; [unfold find_closest_latent_vector; now rewrite Hrun|].
  unfold display_result. simpl fst. simpl snd.
  pose proof (divmod5 (length (images st))) as [Hd Hm].
  pose proof (Z.div_mod N 5 ltac:(lia)) as HdZ.
  pose proof (Z.mod_pos_bound N 5 ltac:(lia)) as HmZ.
  assert (Hne : images st <> [])
    by (intros E; rewrite E in Hi; simpl in Hi; lia).
  assert (Hcap : forall cs, Some (map format (losses st)) = Some cs ->
                   (length (images st) <= length cs)%nat).
  { intros cs Hcs. injection Hcs as <-. rewrite length_map. lia. }
  split.
  - intros Hok.
    assert (Hgood : (length (images st) mod 5)%nat = 0%nat /\
                    (10 <= length (images st))%nat).
    { destruct (Nat.eq_dec (length (images st) mod 5) 0) as [E|E].
      - split; [exact E|].
        destruct (Nat.lt_ge_cases (length (images st)) 10) as [Hlt|Hge];
          [|exact Hge].
        exfalso. apply Hok. apply display_images_fails; auto.
      - exfalso. apply Hok. apply display_images_fails; auto. }
    lia.
  - intros [HmN HgeN] [e He].
    rewrite (@display_images_succeeds T Caption subplots_no_rows (images st)
               (Some (map format (losses st)))
               (length (images st) / 5)%nat) in He;
      [discriminate|lia|lia|exact Hcap].
Qed.

End ScriptDisplay.

Lemma display_result_succeeds_iff_witness :
  exists res,
    find_closest_latent_vector Stub.kernel Stub.module [2; 2; 3]%nat tt
      Stub.adam Stub.white_rgba Stub.env0 40 = Ok res /\
    (~ raises (display_result (Ok tt) (fun l : f32 => l) res) <->
     ((40 mod 5 = 0)%Z /\ (10 <= 40)%Z)).
Proof.
  apply (display_result_succeeds_iff
           Stub.kernel Stub.module [2; 2; 3]%nat tt Stub.adam).
  - exact stub_module_batch.
  - intros lr f s v. reflexivity.
  - lia.
  - vm_compute. reflexivity.
Defined.

(** ** The bytes of [animate] *)







